(** * go-release-cycle: release ledger and duration assignment

    A shallow embedding of [main.go]: the tag interpreter ([MakeReleases]),
    the ledger ([Releases], [Add]) and the duration assignment
    ([SetDurations], [SetLastDuration], [SetDuration]), together with the
    version helpers ([parseVersion], [nextVersion], [prevVersion]).

    Conventions of the embedding.
    - Go strings are byte strings: [string] (a list of [ascii]).
    - [int] and [int64] are 64-bit (the gc targets amd64/arm64); integers are
      [Z] with the wrap-around written out ([wrap64]).
    - A [time.Time] obtained from [time.Parse] or [time.Now] is identified
      with its instant, a count of nanoseconds since the Unix epoch; a
      [time.Duration] is an [int64] count of nanoseconds.
    - A panic is the result [None]; [MakeReleases], which can also return an
      error value, has the three-way result type [outcome].
    - The ledger [map[Version]map[ReleaseType][]Release] is a [gmap] of
      [gmap]s of lists.  A [range] over a Go map visits the keys in an
      unspecified order: the order is an explicit argument of the loops.
      Every bucket owns its backing array ([Add] only appends), so buckets
      are values and an element assignment is an in-place [alter]. *)

From Stdlib Require Import ZArith Lia Ascii String DecimalString DecimalPos.
From stdpp Require Import gmap strings list fin_maps.

Local Open Scope Z_scope.
Local Open Scope list_scope.

(** ** Library functions of Go used by the program *)

Module strconv.

Definition isDigit (c : ascii) : bool :=
  (48 <=? Z.of_nat (nat_of_ascii c)) && (Z.of_nat (nat_of_ascii c) <=? 57).

Definition digitVal (c : ascii) : Z := Z.of_nat (nat_of_ascii c) - 48.

(** The base-10 loop of [ParseUint], on an unbounded accumulator: [None]
    when a byte is not a decimal digit. *)
Fixpoint digits (s : string) (acc : Z) : option Z :=
  match s with
  | EmptyString => Some acc
  | String c s' =>
      if isDigit c then digits s' (10 * acc + digitVal c) else None
  end.

(** [strconv.ParseInt(s, 10, 64)]: [None] stands for a non-nil error, be
    it a syntax error (empty input, a lone sign, a byte that is not a
    digit) or a range error (the value does not fit in an [int64]). *)
Definition ParseInt (s : string) : option Z :=
  match s with
  | EmptyString => None
  | String c s' =>
      let neg := Ascii.eqb c "-" in
      let body := if Ascii.eqb c "+" || neg then s' else s in
      match body with
      | EmptyString => None
      | _ =>
          match digits body 0 with
          | None => None
          | Some un =>
              if negb neg && (2 ^ 63 <=? un) then None
              else if neg && (2 ^ 63 <? un) then None
              else Some (if neg then - un else un)
          end
      end
  end.

(** The verb [%d] of [fmt.Sprintf] on an integer. *)
Definition FormatInt (n : Z) : string := NilZero.string_of_int (Z.to_int n).

End strconv.

(** [x] reduced to the range of a signed 64-bit integer (two's complement). *)
Definition wrap64 (x : Z) : Z := (x + 2 ^ 63) mod 2 ^ 64 - 2 ^ 63.

Module gotime.

(** An instant, in nanoseconds since the Unix epoch. *)
Definition instant := Z.

Definition minDuration : Z := - 2 ^ 63.
Definition maxDuration : Z := 2 ^ 63 - 1.

(** [t.Sub(u)]: the difference, saturated to the range of a Duration. *)
Definition Sub (t u : instant) : Z :=
  if t - u <? minDuration then minDuration
  else if maxDuration <? t - u then maxDuration
  else t - u.

(** *** [time.Parse] for the one layout of the program

    [time.Parse("Mon Jan _2 15:04:05 2006 -0700", value)], following
    package [time] (format.go, Go 1.20): the layout splits into the
    elements weekday, month, day, hour, minute, second, year and numeric
    zone, separated by the literals [" "] and [":"].  [None] stands for a
    non-nil error. *)

Definition is_space (c : ascii) : bool := Ascii.eqb c " ".

Fixpoint cutspace (s : string) : string :=
  match s with
  | String c s' => if is_space c then cutspace s' else s
  | EmptyString => s
  end.

(** [skip(value, " ")]: a space of the layout stands for any run of
    spaces, provided the value is empty or starts with one. *)
Definition skip_space (value : string) : option string :=
  match value with
  | EmptyString => Some value
  | String c _ => if is_space c then Some (cutspace value) else None
  end.

(** [skip(value, ":")]. *)
Definition skip_colon (value : string) : option string :=
  match value with
  | String c s' => if Ascii.eqb c ":" then Some s' else None
  | EmptyString => None
  end.

(** [match]: bytes are equal, or are the same letter in another case. *)
Definition fold_eq (c1 c2 : ascii) : bool :=
  Ascii.eqb c1 c2 ||
  (let l1 := N.lor (N_of_ascii c1) 32 in
   let l2 := N.lor (N_of_ascii c2) 32 in
   N.eqb l1 l2 && N.leb 97 l1 && N.leb l1 122)%N.

Fixpoint match_name (name value : string) : option string :=
  match name, value with
  | EmptyString, _ => Some value
  | String c1 name', String c2 value' =>
      if fold_eq c2 c1 then match_name name' value' else None
  | String _ _, EmptyString => None
  end.

(** [lookup(tab, val)]: the index of the first name of [tab] that [val]
    starts with, and what follows it. *)
Fixpoint lookup_name (tab : list string) (i : Z) (value : string)
  : option (Z * string) :=
  match tab with
  | [] => None
  | name :: tab' =>
      match match_name name value with
      | Some rest => Some (i, rest)
      | None => lookup_name tab' (i + 1) value
      end
  end.

Definition shortDayNames : list string :=
  ["Sun"; "Mon"; "Tue"; "Wed"; "Thu"; "Fri"; "Sat"]%string.
Definition shortMonthNames : list string :=
  ["Jan"; "Feb"; "Mar"; "Apr"; "May"; "Jun";
   "Jul"; "Aug"; "Sep"; "Oct"; "Nov"; "Dec"]%string.

(** [getnum(s, fixed)]: one or two digits; two are required when [fixed]. *)
Definition getnum (s : string) (fixed : bool) : option (Z * string) :=
  match s with
  | String c1 s1 =>
      if strconv.isDigit c1 then
        match s1 with
        | String c2 s2 =>
            if strconv.isDigit c2
            then Some (10 * strconv.digitVal c1 + strconv.digitVal c2, s2)
            else if fixed then None else Some (strconv.digitVal c1, s1)
        | EmptyString =>
            if fixed then None else Some (strconv.digitVal c1, s1)
        end
      else None
  | EmptyString => None
  end.

(** The first [n] bytes of [s] when they are all digits, with their value. *)
Fixpoint take_digits (n : nat) (s : string) (acc : Z) : option (Z * string) :=
  match n with
  | O => Some (acc, s)
  | S n' =>
      match s with
      | String c s' =>
          if strconv.isDigit c
          then take_digits n' s' (10 * acc + strconv.digitVal c)
          else None
      | EmptyString => None
      end
  end.

(** The run of digits [s] starts with, at most [n] of them read into the
    value; [k] counts the digits read. *)
Fixpoint digit_run (n : nat) (s : string) (acc : Z) (k : nat)
  : Z * nat * string :=
  match s with
  | String c s' =>
      if strconv.isDigit c then
        match n with
        | O => digit_run O s' acc k
        | S n' => digit_run n' s' (10 * acc + strconv.digitVal c) (S k)
        end
      else (acc, k, s)
  | EmptyString => (acc, k, s)
  end.

(** A fractional second in the value that the layout does not have: a
    period or comma followed by digits, of which nine count. *)
Definition fraction (value : string) : Z * string :=
  match value with
  | String c (String d _ as ds) =>
      if (Ascii.eqb c "." || Ascii.eqb c ",") && strconv.isDigit d then
        let '(ns, k, rest) := digit_run 9 ds 0 0 in
        (ns * 10 ^ Z.of_nat (9 - k), rest)
      else (0, value)
  | _ => (0, value)
  end.

Definition isLeap (year : Z) : bool :=
  (year mod 4 =? 0) && (negb (year mod 100 =? 0) || (year mod 400 =? 0)).

Definition daysIn (month year : Z) : Z :=
  if month =? 2 then (if isLeap year then 29 else 28)
  else if (month =? 4) || (month =? 6) || (month =? 9) || (month =? 11)
       then 30 else 31.

(** Days from 1970-01-01 to the given day of the proleptic Gregorian
    calendar. *)
Definition daysSinceEpoch (year month day : Z) : Z :=
  let y := if month <=? 2 then year - 1 else year in
  let era := y / 400 in
  let yoe := y - era * 400 in
  let mp := if month <=? 2 then month + 9 else month - 3 in
  let doy := (153 * mp + 2) / 5 + day - 1 in
  let doe := yoe * 365 + yoe / 4 - yoe / 100 + doy in
  era * 146097 + doe - 719468.

Definition Parse (value : string) : option instant :=
  '(_, value) ← lookup_name shortDayNames 0 value;
  value ← skip_space value;
  '(m, value) ← lookup_name shortMonthNames 0 value;
  let month := m + 1 in
  value ← skip_space value;
  '(day, value) ← getnum value false;
  value ← skip_space value;
  '(hour, value) ← getnum value false;
  guard (hour <? 24);;
  value ← skip_colon value;
  '(min, value) ← getnum value true;
  guard (min <? 60);;
  value ← skip_colon value;
  '(sec, value) ← getnum value true;
  guard (sec <? 60);;
  let '(nsec, value) := fraction value in
  value ← skip_space value;
  '(year, value) ← take_digits 4 value 0;
  value ← skip_space value;
  match value with
  | String sign digits =>
      '(hr, digits) ← take_digits 2 digits 0;
      '(mm, value) ← take_digits 2 digits 0;
      guard (hr <=? 24);;
      guard (mm <=? 60);;
      let zoneOffset := (hr * 60 + mm) * 60 in
      zoneOffset ← (if Ascii.eqb sign "+" then Some zoneOffset
                    else if Ascii.eqb sign "-" then Some (- zoneOffset)
                    else None);
      guard (bool_decide (value = EmptyString));;
      guard ((1 <=? day) && (day <=? daysIn month year));;
      let secs := daysSinceEpoch year month day * 86400
                  + hour * 3600 + min * 60 + sec - zoneOffset in
      Some (secs * 1000000000 + nsec)
  | EmptyString => None
  end.

End gotime.

Import gotime.

(** ** Data model *)

Abbreviation Version := string.
Abbreviation ReleaseType := string.

Definition BetaRelease : ReleaseType := "beta".
Definition RCRelease : ReleaseType := "rc".
Definition GARelease : ReleaseType := ".".

Record Release := mkRelease { date : instant; duration : Z }.

#[global] Instance Release_eq_dec : EqDecision Release.
Proof. solve_decision. Defined.

Abbreviation Releases := (gmap string (gmap string (list Release))).

(** [r[version][typ]]: indexing a missing key of a Go map gives the zero
    value, here the nil slice. *)
Definition bucket (r : Releases) (version : Version) (typ : ReleaseType)
  : list Release :=
  default [] (r !! version ≫= lookup typ).

(** The second result of [_, ok := r[version][typ]]. *)
Definition has_bucket (r : Releases) (version : Version) (typ : ReleaseType)
  : bool :=
  bool_decide (is_Some (r !! version ≫= lookup typ)).

(** ** Version helpers *)

(** [strings.SplitN(s, ".", 2)]: the text before the first dot and the text
    after it, or [s] alone when it has no dot. *)
Fixpoint cut_dot (s : string) : option (string * string) :=
  match s with
  | EmptyString => None
  | String c s' =>
      if Ascii.eqb c "." then Some (EmptyString, s')
      else match cut_dot s' with
           | Some (a, b) => Some (String c a, b)
           | None => None
           end
  end.

Definition SplitN2 (s : string) : list string :=
  match cut_dot s with
  | Some (a, b) => [a; b]
  | None => [s]
  end.

(** [None] is a panic: a failed [ParseInt], or [v[1]] out of range. *)
Definition parseVersion (version : Version) : option (Z * Z) :=
  let v := SplitN2 version in
  v0 ← v !! 0%nat;
  maj ← strconv.ParseInt v0;
  v1 ← v !! 1%nat;
  min ← strconv.ParseInt v1;
  Some (maj, min).

Definition Sprintf_version (major minor : Z) : Version :=
  (strconv.FormatInt major +:+ "." +:+ strconv.FormatInt minor)%string.

Definition nextVersion (current : Version) : option Version :=
  '(major, minor) ← parseVersion current;
  Some (Sprintf_version major (wrap64 (minor + 1))).

Definition prevVersion (current : Version) : option Version :=
  '(major, minor) ← parseVersion current;
  Some (Sprintf_version major (wrap64 (minor - 1))).

(** ** The ledger: insertion *)

(** The first statement of [Add]: the inner map of [version] is created
    when it is missing. *)
Definition make_version (r : Releases) (version : Version) : Releases :=
  match r !! version with
  | Some _ => r
  | None => <[version := ∅]> r
  end.

(** [Add]: the insertion is dropped when a GA bucket of the next version
    exists; otherwise a release with the zero duration is appended. *)
Definition Add (r : Releases) (version : Version) (typ : ReleaseType)
    (num : Z) (d : instant) : option Releases :=
  let r1 := make_version r version in
  next ← nextVersion version;
  if has_bucket r1 next GARelease && bool_decide (typ = GARelease)
  then Some r1
  else Some (<[version :=
                 <[typ := bucket r1 version typ ++ [mkRelease d 0]]>
                   (default ∅ (r1 !! version))]> r1).

(** ** The ledger: duration assignment *)

Definition set_duration (closing : instant) (rel : Release) : Release :=
  mkRelease (date rel) (Sub closing (date rel)).

(** The assignment [r[version][typ][idx].duration = d] on an element that
    exists: neither a key nor a length changes. *)
Definition alter_bucket (f : list Release → list Release) (r : Releases)
    (version : Version) (typ : ReleaseType) : Releases :=
  alter (alter f typ) version r.

Definition close (r : Releases) (version : Version) (typ : ReleaseType)
    (idx : nat) (closing : instant) : Releases :=
  alter_bucket (alter (set_duration closing) idx) r version typ.

(** [SetDuration]: indexing the slice out of range panics. *)
Definition SetDuration (r : Releases) (version : Version) (typ : ReleaseType)
    (d : instant) (idx : Z) : option Releases :=
  if idx <? 0 then None
  else match bucket r version typ !! Z.to_nat idx with
       | None => None
       | Some _ => Some (close r version typ (Z.to_nat idx) d)
       end.

Definition SetLastDuration (r : Releases) (version : Version)
    (typ : ReleaseType) (d : instant) : option Releases :=
  let idx := Z.of_nat (length (bucket r version typ)) - 1 in
  if idx <? 0 then Some r else SetDuration r version typ d idx.

(** The [switch] of the first loop of [SetDurations], for the release at
    index [i] of the bucket [(version, typ)]. *)
Definition closure_step (r : Releases) (version : Version) (typ : ReleaseType)
    (i : nat) (release : Release) : option Releases :=
  if bool_decide (typ = BetaRelease) && bool_decide (i = 0%nat) then Some r
  else if bool_decide (typ = RCRelease) && bool_decide (i = 0%nat) then
    SetLastDuration r version BetaRelease (date release)
  else if bool_decide (typ = GARelease) && bool_decide (i = 0%nat) then
    r1 ← SetLastDuration r version RCRelease (date release);
    prev ← prevVersion version;
    SetLastDuration r1 prev GARelease (date release)
  else SetDuration r version typ (date release) (Z.of_nat i - 1).

(** [for i, release := range releases]: the length is that of the slice
    when the loop starts, and each element is read when its turn comes.
    The loop runs over any state [S] that holds the ledger. *)
Section range.
Context {S : Type} (ledger : S → Releases).

Fixpoint range_releases (body : S → nat → Release → option S)
    (version : Version) (typ : ReleaseType) (i n : nat) (s : S)
  : option S :=
  match n with
  | O => Some s
  | Datatypes.S n' =>
      release ← bucket (ledger s) version typ !! i;
      s' ← body s i release;
      range_releases body version typ (Datatypes.S i) n' s'
  end.

(** [for typ, releases := range revs], the types in the order [ts]. *)
Fixpoint range_types (body : S → Version → ReleaseType → nat → Release → option S)
    (version : Version) (ts : list ReleaseType) (s : S) : option S :=
  match ts with
  | [] => Some s
  | typ :: ts' =>
      s' ← range_releases (λ s, body s version typ) version typ 0
              (length (bucket (ledger s) version typ)) s;
      range_types body version ts' s'
  end.

(** [for version, revs := range r], the versions and, for each, its
    types in the order [o]. *)
Fixpoint range_versions (body : S → Version → ReleaseType → nat → Release → option S)
    (o : list (Version * list ReleaseType)) (s : S) : option S :=
  match o with
  | [] => Some s
  | (version, ts) :: o' =>
      s' ← range_types body version ts s;
      range_versions body o' s'
  end.
End range.

(** An order in which a [range] over the ledger and, nested in it, over
    the inner maps can visit the keys: every key once. *)
Definition keys {A} (m : gmap string A) : list string := (map_to_list m).*1.

Definition iteration_order (r : Releases)
    (o : list (Version * list ReleaseType)) : Prop :=
  o.*1 ≡ₚ keys r ∧
  Forall (λ vt, vt.2 ≡ₚ keys (default ∅ (r !! vt.1))) o.

(** The first loop of [SetDurations]. *)
Definition pass1 (o : list (Version * list ReleaseType)) (r : Releases)
  : option Releases :=
  range_versions id closure_step o r.

(** The body of the second loop: the clock is read, and read again, for
    every release whose duration is zero.  The state carries the number of
    readings of [time.Now] made so far. *)
Definition fallback_step (clock : nat → instant) (s : Releases * nat)
    (version : Version) (typ : ReleaseType) (i : nat) (release : Release)
  : option (Releases * nat) :=
  if duration release =? 0 then
    r' ← SetDuration s.1 version typ (clock s.2) (Z.of_nat i);
    Some (r', Datatypes.S s.2)
  else Some s.

Definition pass2 (clock : nat → instant)
    (o : list (Version * list ReleaseType)) (s : Releases * nat)
  : option (Releases * nat) :=
  range_versions fst (fallback_step clock) o s.

(** [SetDurations]: [o1] and [o2] are the orders of the two loops, [clock]
    the successive readings of [time.Now]; the result is the ledger and
    the number of readings made. *)
Definition SetDurations (o1 o2 : list (Version * list ReleaseType))
    (clock : nat → instant) (r : Releases) : option (Releases * nat) :=
  r1 ← pass1 o1 r;
  pass2 clock o2 (r1, 0%nat).


(** ** The tag interpreter *)

(** One element of the result of [FindAllStringSubmatch]: the matched text
    and the four captures. *)
Record tag := mkTag {
  tag0 : string;      (* the whole match *)
  tag1 : string;      (* the version *)
  tag2 : string;      (* the release type *)
  tag3 : string;      (* the release number *)
  tag4 : string       (* the date *)
}.

(** The pattern [go([0-9]+\.[0-9]+)(\.|rc|beta|)([0-9+]|)\t], then a
    capture of any bytes [.] repeated (the date), then a newline,
    matched at the start of a text the way Go's [regexp] does (leftmost
    first: a greedy repetition takes all it can and gives back one byte at
    a time; of the alternatives the first that leads to a match wins).
    Every matcher returns the captures made from its position on and the
    text left after the match. *)

Definition Tab : ascii := ascii_of_nat 9.
Definition Newline : ascii := ascii_of_nat 10.

(** The capture of the date, up to the newline; [.] is any byte but the
    newline. *)
Fixpoint match_date (s : string) : option (string * string) :=
  match s with
  | EmptyString => None
  | String c s' =>
      if Ascii.eqb c Newline then Some (EmptyString, s')
      else match match_date s' with
           | Some (d, rest) => Some (String c d, rest)
           | None => None
           end
  end.

(** The tab, the date and the newline. *)
Definition match_tab (s : string) : option (string * string) :=
  match s with
  | String c s' => if Ascii.eqb c Tab then match_date s' else None
  | EmptyString => None
  end.

(** [([0-9+]|)]: one byte that is a digit or a plus sign, else nothing. *)
Definition match_num (s : string) : option (string * string * string) :=
  let empty := '(d, rest) ← match_tab s; Some (EmptyString, d, rest) in
  match s with
  | String c s' =>
      if strconv.isDigit c || Ascii.eqb c "+" then
        match match_tab s' with
        | Some (d, rest) => Some (String c EmptyString, d, rest)
        | None => empty
        end
      else empty
  | EmptyString => empty
  end.

Fixpoint strip_prefix (p s : string) : option string :=
  match p, s with
  | EmptyString, _ => Some s
  | String a p', String b s' => if Ascii.eqb a b then strip_prefix p' s' else None
  | String _ _, EmptyString => None
  end.

(** [(\.|rc|beta|)], the alternatives in their order. *)
Fixpoint match_type (alts : list string) (s : string)
  : option (string * string * string * string) :=
  match alts with
  | [] => None
  | alt :: alts' =>
      match strip_prefix alt s ≫= match_num with
      | Some (n, d, rest) => Some (alt, n, d, rest)
      | None => match_type alts' s
      end
  end.

Definition type_alternatives : list string := ["."; "rc"; "beta"; ""]%string.

(** [[0-9]+] followed by [k]: as many digits as possible, fewer when the
    rest does not match. *)
Section digits_then.
Context {A : Type} (k : string → option A).

Fixpoint digits_then (s : string) : option (string * A) :=
  match s with
  | EmptyString => None
  | String c s' =>
      if strconv.isDigit c then
        match digits_then s' with
        | Some (ds, x) => Some (String c ds, x)
        | None => x ← k s'; Some (String c EmptyString, x)
        end
      else None
  end.
End digits_then.

Definition match_dot {A} (k : string → option A) (s : string) : option A :=
  match s with
  | String c s' => if Ascii.eqb c "." then k s' else None
  | EmptyString => None
  end.

(** [([0-9]+\.[0-9]+)] and what follows it. *)
Definition match_version (s : string)
  : option (string * (string * (string * string * string * string))) :=
  digits_then (match_dot (digits_then (match_type type_alternatives))) s.

(** The whole pattern at the start of [s]: the tag and the text after it. *)
Definition match_tag (s : string) : option (tag * string) :=
  s1 ← strip_prefix "go" s;
  '(major, (minor, (typ, num, d, rest))) ← match_version s1;
  let version := (major +:+ "." +:+ minor)%string in
  let whole := ("go" +:+ version +:+ typ +:+ num
                  +:+ String Tab d +:+ String Newline EmptyString)%string in
  Some (mkTag whole version typ num d, rest).

(** [FindAllStringSubmatch(s, -1)]: the leftmost match, then the leftmost
    match after it, and so on.  [skip] counts the bytes of the last match
    still to be passed over (a match is never empty). *)
Fixpoint FindAllStringSubmatch (s : string) (skip : nat) : list tag :=
  match s with
  | EmptyString => []
  | String _ s' =>
      match skip with
      | S n => FindAllStringSubmatch s' n
      | O =>
          match match_tag s with
          | Some (t, _) =>
              t :: FindAllStringSubmatch s' (String.length (tag0 t) - 1)
          | None => FindAllStringSubmatch s' 0
          end
      end
  end.

(** The result of [MakeReleases]: a ledger, an error value (with the tag
    named in its message), or a panic. *)
Inductive outcome :=
  | Ok (r : Releases)
  | Err (tag0 : string)
  | Panic.

(** The release number of a tag: 0 for the empty capture. *)
Definition release_number (t : tag) : option Z :=
  if bool_decide (tag3 t = EmptyString) then Some 0
  else strconv.ParseInt (tag3 t).

Section MakeReleases.
(** [time.Parse] with the layout of the program. *)
Variable time_Parse : string → option instant.

(** The body of the loop over the tags. *)
Fixpoint add_tags (tags : list tag) (releases : Releases) : outcome :=
  match tags with
  | [] => Ok releases
  | t :: tags' =>
      let version : Version := tag1 t in
      let revType : ReleaseType := tag2 t in
      match release_number t with
      | None => Err (tag0 t)
      | Some num =>
          match time_Parse (tag4 t) with
          | None => Err (tag0 t)
          | Some d =>
              let revType :=
                if bool_decide (revType = EmptyString) then GARelease
                else revType in
              match Add releases version revType num d with
              | None => Panic
              | Some releases' => add_tags tags' releases'
              end
          end
      end
  end.

Definition MakeReleases_with (out : string) : outcome :=
  add_tags (FindAllStringSubmatch out 0) ∅.
End MakeReleases.

Definition MakeReleases (out : string) : outcome :=
  MakeReleases_with gotime.Parse out.

(** ** The report *)

(** [strings.Join]. *)
Fixpoint Join (elems : list string) (sep : string) : string :=
  match elems with
  | [] => EmptyString
  | a :: rest =>
      match rest with
      | [] => a
      | _ :: _ => (a +:+ sep +:+ Join rest sep)%string
      end
  end.

(** [86400*time.Second]: a day, in nanoseconds. *)
Definition day : Z := 86400 * 1000000000.

Section CSV.
Variables showGA showBeta showRC : bool.

(** The [switch] of [CSV]: the types that the flags leave out. *)
Definition skipped (typ : ReleaseType) : bool :=
  if String.eqb typ GARelease && negb showGA then true
  else if String.eqb typ BetaRelease && negb showBeta then true
  else if String.eqb typ RCRelease && negb showRC then true
  else false.

(** [for i, release := range releases]: the state is the buffer and the
    header; the quotient of two integers of Go is truncated toward zero. *)
Fixpoint CSV_releases (i : nat) (releases : list Release)
    (s : string * list string) : string * list string :=
  match releases with
  | [] => s
  | release :: releases' =>
      let header :=
        if Z.of_nat (length s.2) - 2 <? Z.of_nat i
        then s.2 ++ [strconv.FormatInt (Z.of_nat i)] else s.2 in
      let buf :=
        (s.1 +:+ strconv.FormatInt (Z.quot (duration release) day)
             +:+ ",")%string in
      CSV_releases (S i) releases' (buf, header)
  end.

(** [for typ, releases := range revs], the types in the order [ts]. *)
Fixpoint CSV_types (r : Releases) (version : Version)
    (ts : list ReleaseType) (s : string * list string)
  : string * list string :=
  match ts with
  | [] => s
  | typ :: ts' =>
      if skipped typ then CSV_types r version ts' s
      else
        let s1 := ((s.1 +:+ version +:+ typ +:+ ",")%string, s.2) in
        let s2 := CSV_releases 0 (bucket r version typ) s1 in
        CSV_types r version ts'
          ((s2.1 +:+ String Newline EmptyString)%string, s2.2)
  end.

(** [for version, revs := range r], in the order [o]. *)
Fixpoint CSV_versions (r : Releases) (o : list (Version * list ReleaseType))
    (s : string * list string) : string * list string :=
  match o with
  | [] => s
  | (version, ts) :: o' => CSV_versions r o' (CSV_types r version ts s)
  end.

Definition CSV (o : list (Version * list ReleaseType)) (r : Releases)
  : string :=
  let s := CSV_versions r o (EmptyString, [EmptyString]) in
  (Join s.2 "," +:+ String Newline EmptyString +:+ s.1)%string.
End CSV.

(** ** The program *)

(** How a run ends: the text printed on the standard output, [log.Fatal],
    or a panic. *)
Inductive exit :=
  | Printed (stdout : string)
  | Fatal
  | Panicked.

(** [main], on the three flags and the text read from the standard input
    (the reading itself is taken to succeed); [o1] and [o2] are the orders
    of the loops of [SetDurations], [o3] that of [CSV]. *)
Definition main (showGA showBeta showRC : bool) (stdin : string)
    (o1 o2 o3 : list (Version * list ReleaseType)) (clock : nat → instant)
  : exit :=
  match MakeReleases stdin with
  | Err _ => Fatal
  | Panic => Panicked
  | Ok releases =>
      match SetDurations o1 o2 clock releases with
      | None => Panicked
      | Some (releases', _) =>
          Printed (CSV showGA showBeta showRC o3 releases')
      end
  end.

(** * Notions used in the statements *)

(** A matched tag whose number or date does not parse. *)
Definition tag_fails (parse : string → option instant) (t : tag) : Prop :=
  (tag3 t ≠ EmptyString ∧ strconv.ParseInt (tag3 t) = None) ∨
  parse (tag4 t) = None.

(** A matched tag that is taken into the ledger. *)
Definition tag_passes (parse : string → option instant) (t : tag) : Prop :=
  ¬ tag_fails parse t ∧ is_Some (parseVersion (tag1 t)).

(** The buckets in the order the nested loops visit them. *)
Definition buckets_of (o : list (Version * list ReleaseType))
  : list (Version * ReleaseType) :=
  o ≫= λ vt, pair vt.1 <$> vt.2.

(** The loops over the versions and the types, as one loop over the
    buckets. *)
Fixpoint range_buckets {S : Type} (ledger : S → Releases)
    (body : S → Version → ReleaseType → nat → Release → option S)
    (bs : list (Version * ReleaseType)) (s : S) : option S :=
  match bs with
  | [] => Some s
  | (version, typ) :: bs' =>
      s' ← range_releases ledger (λ s, body s version typ) version typ 0
              (length (bucket (ledger s) version typ)) s;
      range_buckets ledger body bs' s'
  end.

(** A write: the release to close and the closing date. *)
Definition write : Type := Version * ReleaseType * nat * instant.

Definition target (w : write) : Version * ReleaseType * nat := w.1.

Definition apply_write (r : Releases) (w : write) : Releases :=
  close r w.1.1.1 w.1.1.2 w.1.2 w.2.

Definition apply_writes (ws : list write) (r : Releases) : Releases :=
  foldl apply_write r ws.

(** The dates of a bucket: no write changes them. *)
Definition dates (r : Releases) (v : Version) (t : ReleaseType)
  : list instant :=
  date <$> bucket r v t.

Section writes.
(** The dates of every bucket of the ledger. *)
Variable D : Version → ReleaseType → list instant.

Definition last_write (v : Version) (t : ReleaseType) (d : instant)
  : list write :=
  match length (D v t) with
  | O => []
  | S n => [(v, t, n, d)]
  end.

(** The writes of [closure_step], [None] when it panics. *)
Definition step_writes (v : Version) (t : ReleaseType) (i : nat)
    (d : instant) : option (list write) :=
  if bool_decide (t = BetaRelease) && bool_decide (i = 0%nat) then Some []
  else if bool_decide (t = RCRelease) && bool_decide (i = 0%nat) then
    Some (last_write v BetaRelease d)
  else if bool_decide (t = GARelease) && bool_decide (i = 0%nat) then
    prev ← prevVersion v;
    Some (last_write v RCRelease d ++ last_write prev GARelease d)
  else match i with
       | O => None
       | S j => Some [(v, t, j, d)]
       end.

Fixpoint bucket_writes_from (v : Version) (t : ReleaseType) (i : nat)
    (ds : list instant) : option (list write) :=
  match ds with
  | [] => Some []
  | d :: ds' =>
      ws ← step_writes v t i d;
      ws' ← bucket_writes_from v t (S i) ds';
      Some (ws ++ ws')
  end.

Fixpoint all_writes (bs : list (Version * ReleaseType))
  : option (list write) :=
  match bs with
  | [] => Some []
  | (v, t) :: bs' =>
      ws ← bucket_writes_from v t 0 (D v t);
      ws' ← all_writes bs';
      Some (ws ++ ws')
  end.
End writes.

(** Writes that give every release one closing date commute. *)
Definition consistent (ws : list write) : Prop :=
  ∀ w1 w2, w1 ∈ ws → w2 ∈ ws → target w1 = target w2 → w1.2 = w2.2.

(** Where the writes of the first loop come from: a release is closed by
    the next one of its bucket, the last beta by the first RC, the last RC
    by the first GA, and the last GA by the first GA of a version whose
    previous version it belongs to. *)
Inductive closes (D : Version → ReleaseType → list instant) : write → Prop :=
  | closes_next v t i d :
      D v t !! S i = Some d → closes D (v, t, i, d)
  | closes_beta v i d :
      S i = length (D v BetaRelease) → D v RCRelease !! 0%nat = Some d →
      closes D (v, BetaRelease, i, d)
  | closes_rc v i d :
      S i = length (D v RCRelease) → D v GARelease !! 0%nat = Some d →
      closes D (v, RCRelease, i, d)
  | closes_ga w v i d :
      prevVersion w = Some v →
      S i = length (D v GARelease) → D w GARelease !! 0%nat = Some d →
      closes D (v, GARelease, i, d).

(** No two versions that hold GA releases have the same previous
    version. *)
Definition distinct_predecessors (r : Releases) : Prop :=
  ∀ w1 w2 prev,
    bucket r w1 GARelease ≠ [] → bucket r w2 GARelease ≠ [] →
    prevVersion w1 = Some prev → prevVersion w2 = Some prev → w1 = w2.

(** The buckets of a ledger, each once. *)
Definition all_buckets (r : Releases) : list (Version * ReleaseType) :=
  keys r ≫= λ v, pair v <$> keys (default ∅ (r !! v)).

#[global] Instance iteration_order_dec r o : Decision (iteration_order r o).
Proof. unfold iteration_order. apply _. Defined.


(** The second loop over one bucket, from the reading [n] of the clock on:
    the new bucket and the number of the next reading. *)
Fixpoint settle_list (clock : nat → instant) (n : nat) (l : list Release)
  : list Release * nat :=
  match l with
  | [] => ([], n)
  | rel :: l' =>
      if duration rel =? 0 then
        let '(l'', n') := settle_list clock (S n) l' in
        (set_duration (clock n) rel :: l'', n')
      else
        let '(l'', n') := settle_list clock n l' in
        (rel :: l'', n')
  end.

Definition settle_bucket (clock : nat → instant) (s : Releases * nat)
    (b : Version * ReleaseType) : Releases * nat :=
  let ln := settle_list clock s.2 (bucket s.1 b.1 b.2) in
  (alter_bucket (λ _, ln.1) s.1 b.1 b.2, ln.2).

Definition settle_buckets (clock : nat → instant)
    (bs : list (Version * ReleaseType)) (s : Releases * nat)
  : Releases * nat :=
  foldl (settle_bucket clock) s bs.

Definition settled (clock : nat → instant) (rel : Release) : Prop :=
  duration rel ≠ 0 ∨ ∃ k, clock k = date rel.

(** Every release of the ledger has one of the three types and a version
    that [parseVersion] accepts. *)
Definition well_formed (r : Releases) : Prop :=
  ∀ v t, bucket r v t ≠ [] →
         (t = BetaRelease ∨ t = RCRelease ∨ t = GARelease) ∧
         is_Some (parseVersion v).

(** The second pass as the specification words it: every release whose
    duration is still zero after the first pass is closed at [now]. *)
Definition fallback (now : instant) (rel : Release) : Release :=
  if duration rel =? 0 then set_duration now rel else rel.

Definition fallback_all (now : instant) (r : Releases) : Releases :=
  (λ m : gmap string (list Release),
     (λ l : list Release, fallback now <$> l) <$> m) <$> r.

(** The duration assignment with the reference time as a parameter. *)
Definition assignDurations (o1 : list (Version * list ReleaseType))
    (now : instant) (r : Releases) : option Releases :=
  r1 ← pass1 o1 r; Some (fallback_all now r1).

(** The releases of a bucket, and of a ledger, whose duration is zero. *)
Definition unset (l : list Release) : nat :=
  length (filter (λ rel, duration rel = 0) l).

Definition unset_count (r : Releases) : nat :=
  sum_list_with (λ b, unset (bucket r b.1 b.2)) (all_buckets r).

(** The releases of a ledger all come, still open, from tags of [tags]. *)
Definition from_tags (parse : string → option instant) (tags : list tag)
    (r : Releases) : Prop :=
  ∀ v t i rel, bucket r v t !! i = Some rel →
    duration rel = 0 ∧
    ∃ tg, tg ∈ tags ∧ tag1 tg = v ∧
          t = (if bool_decide (tag2 tg = EmptyString) then GARelease
               else tag2 tg) ∧
          parse (tag4 tg) = Some (date rel).

(** A bucket on whose first release the first loop panics: its type is
    none of the three, or it is a GA bucket of a version that
    [parseVersion] rejects. *)
Definition panics_on (v : Version) (t : ReleaseType) : Prop :=
  (t ≠ BetaRelease ∧ t ≠ RCRelease ∧ t ≠ GARelease) ∨
  (t = GARelease ∧ parseVersion v = None).

(** A text that holds no newline. *)
Fixpoint no_newline (s : string) : bool :=
  match s with
  | EmptyString => true
  | String c s' => negb (Ascii.eqb c Newline) && no_newline s'
  end.

(** A matcher that fails on the empty text, and that on a text followed by
    a tail without newline gives what it gives on the text, the tail added
    to what is left. *)
Definition extends {A} (k : string → option A) (ext : string → A → A)
  : Prop :=
  k EmptyString = None ∧
  ∀ tail, no_newline tail = true →
          ∀ s, k (s +:+ tail)%string = ext tail <$> k s.

(** The buckets that the report shows. *)
Definition shown (showGA showBeta showRC : bool) (r : Releases)
  : list (Version * ReleaseType) :=
  filter (λ b, skipped showGA showBeta showRC b.2 = false) (all_buckets r).

(** The line of a bucket in the report: the version and the type, then the
    whole days of every release, each followed by a comma. *)
Definition days (l : list Release) : string :=
  foldr (λ rel acc,
           (strconv.FormatInt (Z.quot (duration rel) day) +:+ "," +:+ acc)%string)
        EmptyString l.

Definition row (r : Releases) (b : Version * ReleaseType) : string :=
  (b.1 +:+ b.2 +:+ "," +:+ days (bucket r b.1 b.2)
       +:+ String Newline EmptyString)%string.

(** The lines of the buckets [bs], one after the other. *)
Definition rows (r : Releases) (bs : list (Version * ReleaseType)) : string :=
  foldr (λ b acc, (row r b +:+ acc)%string) EmptyString bs.

(** The header: an empty field, then the numbers from 0 up to [m], left
    out. *)
Definition columns (m : nat) : list string :=
  EmptyString :: ((λ i, strconv.FormatInt (Z.of_nat i)) <$> seq 0 m).

(** * Properties *)

(** ** Decimal strings and versions *)

Lemma digits_nonneg s acc n :
  0 ≤ acc → strconv.digits s acc = Some n → 0 ≤ n.
Proof.
  revert acc. induction s as [|c s IH]; simpl; intros acc Hacc H.
  - by inversion H; subst.
  - destruct (strconv.isDigit c) eqn:Hc; [|done].
    eapply IH; [|exact H].
    unfold strconv.isDigit, strconv.digitVal in *. lia.
Qed.

(** A string of digits has no sign, so [ParseInt] is the value of the
    digits when that fits. *)
Lemma ParseInt_digits s n :
  s ≠ EmptyString → strconv.digits s 0 = Some n →
  strconv.ParseInt s = if 2 ^ 63 <=? n then None else Some n.
Proof.
  intros Hne H. destruct s as [|c s]; [done|].
  unfold strconv.ParseInt.
  assert (Hc : strconv.isDigit c = true).
  { simpl in H. by destruct (strconv.isDigit c). }
  assert (Ascii.eqb c "-" = false ∧ Ascii.eqb c "+" = false) as [-> ->].
  { split; apply Ascii.eqb_neq; intros ->; by vm_compute in Hc. }
  cbn [orb negb andb]. by rewrite H.
Qed.

Lemma cut_dot_digits a b n acc :
  strconv.digits a acc = Some n →
  cut_dot (a +:+ String "." b) = Some (a, b).
Proof.
  revert acc. induction a as [|c a IH]; simpl; intros acc H; [done|].
  destruct (strconv.isDigit c) eqn:Hc; [|done].
  assert (Ascii.eqb c "." = false) as ->.
  { apply Ascii.eqb_neq; intros ->; by vm_compute in Hc. }
  by rewrite (IH _ H).
Qed.

Lemma parseVersion_digits a b major minor :
  a ≠ EmptyString → b ≠ EmptyString →
  strconv.digits a 0 = Some major → strconv.digits b 0 = Some minor →
  parseVersion (a +:+ String "." b) =
    if (2 ^ 63 <=? major) || (2 ^ 63 <=? minor) then None
    else Some (major, minor).
Proof.
  intros Ha Hb Hda Hdb. unfold parseVersion, SplitN2.
  rewrite (cut_dot_digits _ _ _ _ Hda). simpl.
  rewrite (ParseInt_digits _ _ Ha Hda), (ParseInt_digits _ _ Hb Hdb).
  destruct (2 ^ 63 <=? major); [done|]. simpl.
  by destruct (2 ^ 63 <=? minor).
Qed.

Lemma wrap64_id x : - 2 ^ 63 ≤ x < 2 ^ 63 → wrap64 x = x.
Proof. intros H. unfold wrap64. rewrite Z.mod_small; lia. Qed.

Lemma digits_acc_some s acc acc' n :
  strconv.digits s acc = Some n → is_Some (strconv.digits s acc').
Proof.
  revert acc acc' n. induction s as [|c s IH]; simpl; intros acc acc' n H.
  - by eexists.
  - destruct (strconv.isDigit c); [by eapply IH|done].
Qed.

(** What [[0-9]+] captures is a non-empty string of digits, and the rest of
    the pattern matched the text after it. *)
Lemma digits_then_inv {A} (k : string → option A) s ds x :
  digits_then k s = Some (ds, x) →
  ds ≠ EmptyString ∧ is_Some (strconv.digits ds 0) ∧
  ∃ s', s = (ds +:+ s')%string ∧ k s' = Some x.
Proof.
  revert ds x. induction s as [|c s IH]; simpl; intros ds x H; [done|].
  destruct (strconv.isDigit c) eqn:Hc; [|done].
  destruct (digits_then k s) as [[ds' x']|] eqn:Hrec.
  - inversion H; subst. destruct (IH _ _ eq_refl) as (_ & [n Hn] & s' & -> & Hk).
    split; [done|]. split.
    + simpl. rewrite Hc. by eapply digits_acc_some.
    + by exists s'.
  - destruct (k s) as [x'|] eqn:Hk; [|done]. inversion H; subst.
    split; [done|]. split.
    + simpl. rewrite Hc. by eexists.
    + by exists s.
Qed.

Lemma match_version_inv s a b typ num d rest :
  match_version s = Some (a, (b, (typ, num, d, rest))) →
  a ≠ EmptyString ∧ b ≠ EmptyString ∧
  is_Some (strconv.digits a 0) ∧ is_Some (strconv.digits b 0) ∧
  ∃ s', match_type type_alternatives s' = Some (typ, num, d, rest).
Proof.
  unfold match_version. intros Hm.
  destruct (digits_then_inv _ _ _ _ Hm) as (Ha & Hda & s' & -> & Hk).
  unfold match_dot in Hk. destruct s' as [|c s']; [done|].
  destruct (Ascii.eqb c "."); [|done].
  destruct (digits_then_inv _ _ _ _ Hk) as (Hb & Hdb & s'' & _ & Hk').
  repeat split; try done. by exists s''.
Qed.

Lemma match_tag_inv s t rest :
  match_tag s = Some (t, rest) →
  ∃ s1 a b, match_version s1 = Some (a, (b, (tag2 t, tag3 t, tag4 t, rest))) ∧
            tag1 t = (a +:+ String "." b)%string.
Proof.
  unfold match_tag. intros H.
  destruct (strip_prefix "go" s) as [s1|]; [|done]. simpl in H.
  destruct (match_version s1) as [[a [b [[[typ num] d] rest']]]|] eqn:Hm;
    [|done].
  inversion H; subst; clear H. simpl. by exists s1, a, b.
Qed.

(** The version of a matched tag is [<digits>.<digits>]. *)
Lemma match_tag_version s t rest :
  match_tag s = Some (t, rest) →
  ∃ a b, tag1 t = (a +:+ String "." b)%string ∧
         a ≠ EmptyString ∧ b ≠ EmptyString ∧
         is_Some (strconv.digits a 0) ∧ is_Some (strconv.digits b 0).
Proof.
  intros H. destruct (match_tag_inv _ _ _ H) as (s1 & a & b & Hm & Ht).
  destruct (match_version_inv _ _ _ _ _ _ _ Hm) as (? & ? & ? & ? & _).
  by exists a, b.
Qed.

(** C9, amended: on a version [<digits>.<digits>] whose two numbers fit in
    a signed 64-bit integer, [parseVersion] does not panic, [prevVersion]
    is (major, minor - 1) and [nextVersion] is (major, minor + 1), the
    latter provided minor + 1 fits too. *)
Theorem version_helpers_on_digits (a b : string) (major minor : Z) :
  a ≠ EmptyString → b ≠ EmptyString →
  strconv.digits a 0 = Some major → strconv.digits b 0 = Some minor →
  major < 2 ^ 63 → minor < 2 ^ 63 →
  parseVersion (a +:+ String "." b) = Some (major, minor) ∧
  prevVersion (a +:+ String "." b) = Some (Sprintf_version major (minor - 1)) ∧
  (minor + 1 < 2 ^ 63 →
   nextVersion (a +:+ String "." b) = Some (Sprintf_version major (minor + 1))).
Proof.
  intros Ha Hb Hda Hdb Hmaj Hmin.
  pose proof (digits_nonneg _ _ _ (Z.le_refl 0) Hdb) as Hmin0.
  assert (Hp : parseVersion (a +:+ String "." b) = Some (major, minor)).
  { rewrite (parseVersion_digits _ _ _ _ Ha Hb Hda Hdb).
    destruct (Z.leb_spec (2 ^ 63) major); [lia|].
    destruct (Z.leb_spec (2 ^ 63) minor); [lia|done]. }
  split; [done|]. unfold prevVersion, nextVersion. rewrite Hp. simpl. split.
  - by rewrite wrap64_id by lia.
  - intros Hnext. by rewrite wrap64_id by lia.
Qed.

Lemma version_helpers_on_digits_witness :
  parseVersion "1.7" = Some (1, 7) ∧
  prevVersion "1.7" = Some (Sprintf_version 1 (7 - 1)) ∧
  (7 + 1 < 2 ^ 63 → nextVersion "1.7" = Some (Sprintf_version 1 (7 + 1))).
Proof.
  apply (version_helpers_on_digits "1" "7" 1 7); try done; reflexivity.
Defined.

(** C9 as stated fails: the version pattern accepts digit strings of any
    length, and [ParseInt] rejects those that overflow, so the helpers
    panic on a version the interpreter produced. *)
Lemma version_helpers_panic_on_overflow :
  let line := ("go99999999999999999999.0" +:+ String Tab "Mon Aug 15 14:09:32 2016 -0700" +:+ String Newline EmptyString)%string in
  tag1 <$> FindAllStringSubmatch line 0 = ["99999999999999999999.0"%string] ∧
  nextVersion "99999999999999999999.0" = None ∧
  prevVersion "99999999999999999999.0" = None.
Proof. vm_compute. done. Qed.

(** ** Insertion *)

Lemma make_version_lookup (r : Releases) version v typ :
  make_version r version !! v ≫= lookup typ = r !! v ≫= lookup typ.
Proof.
  unfold make_version. destruct (r !! version) eqn:Hnone; [done|].
  destruct (decide (version = v)) as [->|Hne].
  - by rewrite lookup_insert_eq, Hnone.
  - by rewrite lookup_insert_ne.
Qed.

Lemma make_version_bucket (r : Releases) version v typ :
  bucket (make_version r version) v typ = bucket r v typ.
Proof. unfold bucket. by rewrite make_version_lookup. Qed.

(** C2: a GA insertion for a version whose next version already has a GA
    release is dropped: no bucket of the ledger changes. *)
Theorem Add_superseded (r : Releases) (V nv : Version) (n : Z) (t : instant) :
  nextVersion V = Some nv →
  bucket r nv GARelease ≠ [] →
  ∃ r', Add r V GARelease n t = Some r' ∧
        bucket r' V GARelease = bucket r V GARelease ∧
        ∀ v typ, r' !! v ≫= lookup typ = r !! v ≫= lookup typ.
Proof.
  intros Hnext Hga. unfold Add. rewrite Hnext. simpl.
  assert (Hhas : has_bucket (make_version r V) nv GARelease = true).
  { unfold has_bucket. apply bool_decide_eq_true. rewrite make_version_lookup.
    unfold bucket in Hga.
    destruct (r !! nv ≫= lookup GARelease); [by eexists|by destruct Hga]. }
  rewrite Hhas. simpl. exists (make_version r V). split; [done|].
  split; [apply make_version_bucket|apply make_version_lookup].
Qed.

Lemma Add_superseded_witness :
  ∃ r', Add {[ "1.7" := {[ "." := [mkRelease 20 0] ]};
               "1.6" := {[ "." := [mkRelease 10 0] ]} ]} "1.6" GARelease 1 30
        = Some r' ∧
        bucket r' "1.6" GARelease
        = bucket ({[ "1.7" := {[ "." := [mkRelease 20 0] ]};
                     "1.6" := {[ "." := [mkRelease 10 0] ]} ]} : Releases)
                 "1.6" GARelease ∧
        ∀ v typ, r' !! v ≫= lookup typ
                 = ({[ "1.7" := {[ "." := [mkRelease 20 0] ]};
                       "1.6" := {[ "." := [mkRelease 10 0] ]} ]} : Releases)
                     !! v ≫= lookup typ.
Proof.
  apply (Add_superseded _ "1.6" "1.7" 1 30); [reflexivity|].
  vm_compute. discriminate.
Defined.

(** C10: [Add] never looks at the release number; a release holds a date
    and a duration only; and an insertion leaves the bucket as it was or
    puts the new release, with the zero duration, after the ones already
    there. *)
Theorem Add_ignores_num (r : Releases) (version : Version) (typ : ReleaseType)
    (n1 n2 : Z) (d : instant) :
  Add r version typ n1 d = Add r version typ n2 d ∧
  (∀ rel : Release, rel = mkRelease (date rel) (duration rel)) ∧
  match Add r version typ n1 d with
  | Some r' =>
      bucket r' version typ = bucket r version typ ∨
      bucket r' version typ = bucket r version typ ++ [mkRelease d 0]
  | None => True
  end.
Proof.
  split; [reflexivity|]. split; [by intros []|].
  unfold Add. destruct (nextVersion version) as [next|]; [|done]. simpl.
  destruct (has_bucket _ next GARelease && bool_decide (typ = GARelease)).
  - left. apply make_version_bucket.
  - right. unfold bucket at 1. rewrite lookup_insert_eq. simpl.
    rewrite lookup_insert_eq. simpl. by rewrite make_version_bucket.
Qed.

(** ** The tag interpreter *)

Lemma Add_is_Some r version typ num d :
  is_Some (Add r version typ num d) ↔ is_Some (parseVersion version).
Proof.
  unfold Add, nextVersion.
  destruct (parseVersion version) as [[major minor]|]; simpl.
  - split; intros _; [by eexists|].
    destruct (has_bucket _ _ _ && _); by eexists.
  - split; intros [? ?]; done.
Qed.

Lemma release_number_None t :
  release_number t = None ↔
  tag3 t ≠ EmptyString ∧ strconv.ParseInt (tag3 t) = None.
Proof.
  unfold release_number. case_bool_decide as H.
  - split; [done|]. by intros [? _].
  - split; [done|]. by intros [_ ?].
Qed.

Section add_tags.
Variable parse : string → option instant.

Lemma tag_fails_dec t :
  tag_fails parse t ↔ release_number t = None ∨ parse (tag4 t) = None.
Proof. unfold tag_fails. by rewrite release_number_None. Qed.

(** The first tag that fails, with only passing tags before it, decides
    for the error value. *)
Lemma add_tags_Err tags r m :
  add_tags parse tags r = Err m ↔
  ∃ pre t post, tags = pre ++ t :: post ∧ m = tag0 t ∧
                tag_fails parse t ∧ Forall (tag_passes parse) pre.
Proof.
  revert r. induction tags as [|t tags IH]; intros r; simpl.
  - split; [done|]. intros (pre & t & post & H & _). by destruct pre.
  - destruct (release_number t) as [num|] eqn:Hnum.
    + destruct (parse (tag4 t)) as [d|] eqn:Hd.
      * assert (Hok : ¬ tag_fails parse t).
        { rewrite tag_fails_dec, Hnum, Hd. by intros [?|?]. }
        destruct (Add r (tag1 t) _ num d) as [r'|] eqn:Hadd.
        -- rewrite IH. split.
           ++ intros (pre & u & post & -> & -> & Hu & Hpre).
              exists (t :: pre), u, post. repeat split; try done.
              constructor; [|done]. split; [done|].
              eapply Add_is_Some. by rewrite Hadd.
           ++ intros (pre & u & post & Heq & -> & Hu & Hpre).
              destruct pre as [|t' pre]; simpl in Heq; inversion Heq; subst.
              { done. }
              exists pre, u, post. repeat split; try done.
              by inversion Hpre.
        -- split; [done|].
           intros (pre & u & post & Heq & -> & Hu & Hpre).
           destruct pre as [|t' pre]; simpl in Heq; inversion Heq; subst.
           { done. }
           inversion Hpre as [|? ? [_ Hv] _]; subst.
           apply (Add_is_Some r _ (if bool_decide (tag2 t' = EmptyString)
                                   then GARelease else tag2 t') num d) in Hv.
           rewrite Hadd in Hv. by destruct Hv.
      * split.
        -- intros [= <-]. exists [], t, tags. repeat split; try done.
           apply tag_fails_dec. by right.
        -- intros (pre & u & post & Heq & -> & Hu & Hpre).
           destruct pre as [|t' pre]; simpl in Heq; inversion Heq; subst.
           { done. }
           inversion Hpre as [|? ? [Hok _] _]; subst.
           destruct Hok. apply tag_fails_dec. by right.
    + split.
      * intros [= <-]. exists [], t, tags. repeat split; try done.
        apply tag_fails_dec. by left.
      * intros (pre & u & post & Heq & -> & Hu & Hpre).
        destruct pre as [|t' pre]; simpl in Heq; inversion Heq; subst.
        { done. }
        inversion Hpre as [|? ? [Hok _] _]; subst.
        destruct Hok. apply tag_fails_dec. by left.
Qed.

(** When every tag passes, the result is a ledger. *)
Lemma add_tags_Ok tags r :
  Forall (tag_passes parse) tags → ∃ r', add_tags parse tags r = Ok r'.
Proof.
  intros Hall. revert r.
  induction Hall as [|t tags [Hok Hv] _ IH]; intros r; simpl; [by eexists|].
  rewrite tag_fails_dec in Hok.
  destruct (release_number t) as [num|]; [|destruct Hok; by left].
  destruct (parse (tag4 t)) as [d|]; [|destruct Hok; by right].
  apply (Add_is_Some r _ (if bool_decide (tag2 t = EmptyString)
                          then GARelease else tag2 t) num d) in Hv.
  destruct Hv as [r' ->]. apply IH.
Qed.
End add_tags.

(** C8, amended: [MakeReleases] returns the error value, which holds no
    ledger, exactly when some matched tag has a date or a non-empty number
    that does not parse and every matched tag before it passes (parses,
    with a version whose numbers fit in 64 bits); the text outside the
    matches plays no part: without a match the result is the empty ledger,
    and when every matched tag passes it is a ledger. *)
Theorem MakeReleases_error (out : string) :
  ((∃ m, MakeReleases out = Err m) ↔
   ∃ pre t post, FindAllStringSubmatch out 0 = pre ++ t :: post ∧
                 tag_fails gotime.Parse t ∧
                 Forall (tag_passes gotime.Parse) pre) ∧
  (FindAllStringSubmatch out 0 = [] → MakeReleases out = Ok ∅) ∧
  (Forall (tag_passes gotime.Parse) (FindAllStringSubmatch out 0) →
   ∃ r, MakeReleases out = Ok r).
Proof.
  unfold MakeReleases, MakeReleases_with. split; [|split].
  - split.
    + intros [m Hm]. apply add_tags_Err in Hm.
      destruct Hm as (pre & t & post & ? & _ & ? & ?). by exists pre, t, post.
    + intros (pre & t & post & ? & ? & ?). exists (tag0 t).
      apply add_tags_Err. by exists pre, t, post.
  - by intros ->.
  - apply add_tags_Ok.
Qed.

(** C8 as stated fails: a matched tag whose number does not parse gives no
    error when a tag before it carries a version that overflows; the
    operation panics in [Add] instead (see [version_helpers_panic_on_overflow]). *)
Lemma MakeReleases_panics_before_error :
  let out :=
    ("refs/tags/go99999999999999999999.0"
       +:+ String Tab "Mon Aug 15 14:09:32 2016 -0700"
       +:+ String Newline "refs/tags/go1.7+"
       +:+ String Tab "Wed Sep 7 12:11:12 2016 -0700"
       +:+ String Newline EmptyString)%string in
  (∃ t, t ∈ FindAllStringSubmatch out 0 ∧ tag_fails gotime.Parse t) ∧
  MakeReleases out = Panic.
Proof.
  split; [|by vm_compute].
  eexists (mkTag _ "1.7" "" "+" "Wed Sep 7 12:11:12 2016 -0700"). split.
  - vm_compute. apply list_elem_of_further, list_elem_of_here.
  - left. by vm_compute.
Qed.

Lemma match_num_length s n d rest :
  match_num s = Some (n, d, rest) → (String.length n ≤ 1)%nat.
Proof.
  unfold match_num. intros H.
  assert (Hempty : ∀ s, ('(d, rest) ← match_tab s; Some (EmptyString, d, rest))
                        = Some (n, d, rest) → (String.length n ≤ 1)%nat).
  { intros s0 H0. destruct (match_tab s0) as [[? ?]|]; [|done].
    simpl in H0. inversion H0; subst. simpl. lia. }
  destruct s as [|c s]; [by eapply Hempty|].
  destruct (strconv.isDigit c || Ascii.eqb c "+"); [|by eapply Hempty].
  destruct (match_tab s) as [[? ?]|]; [|by eapply Hempty].
  inversion H; subst. simpl. lia.
Qed.

Lemma match_type_length alts s typ n d rest :
  match_type alts s = Some (typ, n, d, rest) → (String.length n ≤ 1)%nat.
Proof.
  induction alts as [|alt alts IH]; simpl; [done|].
  destruct (strip_prefix alt s ≫= match_num) as [[[n' d'] rest']|] eqn:Hm.
  - intros [= <- <- <- <-]. destruct (strip_prefix alt s) as [s'|]; [|done].
    simpl in Hm. by eapply match_num_length.
  - exact IH.
Qed.

(** The number captured by the pattern has one byte at most. *)
Lemma match_tag_number_length s t rest :
  match_tag s = Some (t, rest) → (String.length (tag3 t) ≤ 1)%nat.
Proof.
  intros H. destruct (match_tag_inv _ _ _ H) as (s1 & a & b & Hm & _).
  destruct (match_version_inv _ _ _ _ _ _ _ Hm) as (_ & _ & _ & _ & s' & Hk).
  by eapply match_type_length.
Qed.

(** C7 on the code: the line of a patch release numbered 10 is not matched
    at all, so the release is left out of the ledger; a one-digit number
    on the same line is read. *)
Theorem two_digit_number_skipped :
  let line n := ("refs/tags/go1.7." +:+ n
                   +:+ String Tab "Wed Sep 7 12:11:12 2016 -0700"
                   +:+ String Newline EmptyString)%string in
  FindAllStringSubmatch (line "10") 0 = [] ∧
  MakeReleases (line "10") = Ok ∅ ∧
  (tag3 <$> FindAllStringSubmatch (line "1") 0 = ["1"%string]) ∧
  (∀ s t rest, match_tag s = Some (t, rest) → (String.length (tag3 t) ≤ 1)%nat).
Proof.
  cbv zeta. split; [by vm_compute|]. split; [by vm_compute|].
  split; [by vm_compute|]. apply match_tag_number_length.
Qed.

(** ** The ledger as a two-level map *)

Lemma bucket_entry (r : Releases) v t :
  bucket r v t = default [] (r !! v ≫= lookup t).
Proof. done. Qed.

(** Two ledgers with the same versions and the same buckets are equal. *)
Lemma Releases_eq (r1 r2 : Releases) :
  (∀ v, is_Some (r1 !! v) ↔ is_Some (r2 !! v)) →
  (∀ v t, r1 !! v ≫= lookup t = r2 !! v ≫= lookup t) →
  r1 = r2.
Proof.
  intros Hdom Hent. apply map_eq. intros v.
  specialize (Hdom v). pose proof (Hent v) as Hv.
  destruct (r1 !! v) as [m1|], (r2 !! v) as [m2|]; simpl in *.
  - f_equal. apply map_eq. intros t. apply Hv.
  - destruct Hdom as [H _]. by destruct H.
  - destruct Hdom as [_ H]. by destruct H.
  - done.
Qed.

Lemma alter_bucket_dom f (r : Releases) v t v' :
  is_Some (alter_bucket f r v t !! v') ↔ is_Some (r !! v').
Proof.
  unfold alter_bucket. rewrite lookup_alter. case_decide; subst; [|done].
  by rewrite fmap_is_Some.
Qed.

Lemma alter_bucket_entry f (r : Releases) v t v' t' :
  alter_bucket f r v t !! v' ≫= lookup t' =
  if decide (v = v' ∧ t = t') then f <$> (r !! v ≫= lookup t)
  else r !! v' ≫= lookup t'.
Proof.
  unfold alter_bucket. rewrite lookup_alter.
  destruct (decide (v = v')) as [->|Hv].
  - destruct (r !! v') as [m|]; simpl.
    + rewrite lookup_alter. destruct (decide (t = t')) as [->|Ht].
      * by rewrite decide_True.
      * rewrite decide_False; [done|]. by intros [_ ?].
    + by case_decide.
  - rewrite decide_False; [done|]. by intros [? _].
Qed.

Lemma alter_bucket_bucket_ne f (r : Releases) v t v' t' :
  (v, t) ≠ (v', t') → bucket (alter_bucket f r v t) v' t' = bucket r v' t'.
Proof.
  intros Hne. unfold bucket. rewrite alter_bucket_entry.
  rewrite decide_False; [done|]. intros [-> ->]. by destruct Hne.
Qed.

Lemma alter_bucket_bucket_eq f (r : Releases) v t :
  f [] = [] → bucket (alter_bucket f r v t) v t = f (bucket r v t).
Proof.
  intros Hnil. unfold bucket. rewrite alter_bucket_entry.
  rewrite decide_True by done. by destruct (r !! v ≫= lookup t).
Qed.

Lemma alter_bucket_compose f g (r : Releases) v t :
  alter_bucket f (alter_bucket g r v t) v t = alter_bucket (f ∘ g) r v t.
Proof.
  apply Releases_eq.
  - intros v'. by rewrite !alter_bucket_dom.
  - intros v' t'. rewrite !alter_bucket_entry. case_decide as H; [|done].
    rewrite decide_True by done. by destruct (r !! v ≫= lookup t).
Qed.

Lemma alter_bucket_commute f g (r : Releases) v1 t1 v2 t2 :
  (v1, t1) ≠ (v2, t2) →
  alter_bucket f (alter_bucket g r v2 t2) v1 t1 =
  alter_bucket g (alter_bucket f r v1 t1) v2 t2.
Proof.
  intros Hne. apply Releases_eq.
  - intros v'. by rewrite !alter_bucket_dom.
  - intros v' t'. rewrite !alter_bucket_entry.
    repeat case_decide; try done; destruct_and?; subst; by destruct Hne.
Qed.

Lemma alter_bucket_ext f g (r : Releases) v t :
  (∀ l, f l = g l) → alter_bucket f r v t = alter_bucket g r v t.
Proof.
  intros Hfg. apply Releases_eq.
  - intros v'. by rewrite !alter_bucket_dom.
  - intros v' t'. rewrite !alter_bucket_entry. case_decide; [|done].
    destruct (r !! v ≫= lookup t); simpl; [by rewrite Hfg|done].
Qed.

(** *** Closing a release *)

Lemma close_bucket (r : Releases) v t i d v' t' :
  bucket (close r v t i d) v' t' =
  if decide ((v, t) = (v', t')) then alter (set_duration d) i (bucket r v t)
  else bucket r v' t'.
Proof.
  unfold close. case_decide as H.
  - inversion H; subst. by apply alter_bucket_bucket_eq.
  - by apply alter_bucket_bucket_ne.
Qed.

Lemma close_length (r : Releases) v t i d v' t' :
  length (bucket (close r v t i d) v' t') = length (bucket r v' t').
Proof.
  rewrite close_bucket. case_decide as H; [|done].
  inversion H; subst. apply length_alter.
Qed.

Lemma close_dates (r : Releases) v t i d v' t' :
  date <$> bucket (close r v t i d) v' t' = date <$> bucket r v' t'.
Proof.
  rewrite close_bucket. case_decide as H; [|done].
  inversion H; subst. apply list_eq. intros j.
  rewrite !list_lookup_fmap, list_lookup_alter.
  case_decide; subst; [|done]. by destruct (bucket r v' t' !! j).
Qed.

Lemma close_commute (r : Releases) v1 t1 i1 d1 v2 t2 i2 d2 :
  (v1, t1, i1) ≠ (v2, t2, i2) →
  close (close r v2 t2 i2 d2) v1 t1 i1 d1 =
  close (close r v1 t1 i1 d1) v2 t2 i2 d2.
Proof.
  intros Hne. unfold close.
  destruct (decide ((v1, t1) = (v2, t2))) as [Heq|Hvt].
  - inversion Heq; subst. rewrite !alter_bucket_compose.
    apply alter_bucket_ext. intros l. simpl. apply list_eq. intros j.
    rewrite !list_lookup_alter.
    repeat case_decide; subst; done.
  - by apply alter_bucket_commute.
Qed.

Lemma SetDuration_Some (r : Releases) v t d (i : nat) :
  (i < length (bucket r v t))%nat →
  SetDuration r v t d (Z.of_nat i) = Some (close r v t i d).
Proof.
  intros Hi. unfold SetDuration.
  destruct (Z.ltb_spec (Z.of_nat i) 0); [lia|]. rewrite Nat2Z.id.
  destruct (lookup_lt_is_Some_2 _ _ Hi) as [rel ->]. done.
Qed.

Lemma SetLastDuration_Some (r : Releases) v t d :
  SetLastDuration r v t d =
  Some (match length (bucket r v t) with
        | O => r
        | S n => close r v t n d
        end).
Proof.
  unfold SetLastDuration. destruct (length (bucket r v t)) as [|n] eqn:Hlen.
  - done.
  - destruct (Z.ltb_spec (Z.of_nat (S n) - 1) 0); [lia|].
    replace (Z.of_nat (S n) - 1) with (Z.of_nat n) by lia.
    apply SetDuration_Some. lia.
Qed.

(** ** The first loop as a list of writes *)

Lemma range_buckets_app {S} (ledger : S → Releases) body bs1 bs2 (s : S) :
  range_buckets ledger body (bs1 ++ bs2) s =
  range_buckets ledger body bs1 s ≫= range_buckets ledger body bs2.
Proof.
  revert s. induction bs1 as [|[v t] bs1 IH]; intros s; simpl; [done|].
  destruct (range_releases _ _ _ _ _ _ _) as [s'|]; simpl; [apply IH|done].
Qed.

Lemma range_types_buckets {S} (ledger : S → Releases) body v ts (s : S) :
  range_types ledger body v ts s =
  range_buckets ledger body (pair v <$> ts) s.
Proof.
  revert s. induction ts as [|t ts IH]; intros s; simpl; [done|].
  destruct (range_releases _ _ _ _ _ _ _) as [s'|]; simpl; [apply IH|done].
Qed.

Lemma range_versions_buckets {S} (ledger : S → Releases) body o (s : S) :
  range_versions ledger body o s =
  range_buckets ledger body (buckets_of o) s.
Proof.
  revert s. induction o as [|[v ts] o IH]; intros s; [done|].
  unfold buckets_of. cbn [range_versions mbind list_bind]. simpl.
  rewrite range_buckets_app, range_types_buckets.
  destruct (range_buckets _ _ (pair v <$> ts) s) as [s'|]; simpl; [apply IH|done].
Qed.

Lemma apply_writes_app ws1 ws2 r :
  apply_writes (ws1 ++ ws2) r = apply_writes ws2 (apply_writes ws1 r).
Proof. apply foldl_app. Qed.

Lemma apply_writes_dates ws r v t :
  dates (apply_writes ws r) v t = dates r v t.
Proof.
  revert r. induction ws as [|[[[v' t'] i] d] ws IH]; intros r; [done|].
  simpl. rewrite IH. apply close_dates.
Qed.

Lemma dates_length r v t : length (dates r v t) = length (bucket r v t).
Proof. apply length_fmap. Qed.

Lemma closure_step_writes r v t i rel :
  (i < length (bucket r v t))%nat →
  closure_step r v t i rel =
  ws ← step_writes (dates r) v t i (date rel); Some (apply_writes ws r).
Proof.
  intros Hi. unfold closure_step, step_writes, last_write.
  destruct (bool_decide (t = BetaRelease) && bool_decide (i = 0%nat)); [done|].
  destruct (bool_decide (t = RCRelease) && bool_decide (i = 0%nat)).
  { rewrite SetLastDuration_Some, dates_length.
    by destruct (length (bucket r v BetaRelease)). }
  destruct (bool_decide (t = GARelease) && bool_decide (i = 0%nat)).
  { rewrite SetLastDuration_Some. simpl.
    destruct (prevVersion v) as [prev|]; [|done]. simpl.
    rewrite SetLastDuration_Some, !dates_length. f_equal.
    rewrite apply_writes_app.
    assert (Hlen : length (bucket
                (match length (bucket r v RCRelease) with
                 | O => r
                 | S n => close r v RCRelease n (date rel)
                 end) prev GARelease) = length (bucket r prev GARelease)).
    { destruct (length (bucket r v RCRelease)); [done|apply close_length]. }
    rewrite Hlen.
    by destruct (length (bucket r v RCRelease)),
                (length (bucket r prev GARelease)). }
  destruct i as [|j].
  - done.
  - replace (Z.of_nat (S j) - 1) with (Z.of_nat j) by lia.
    rewrite SetDuration_Some by lia. done.
Qed.

Lemma step_writes_ext D1 D2 v t i d :
  (∀ v t, D1 v t = D2 v t) → step_writes D1 v t i d = step_writes D2 v t i d.
Proof.
  intros HD. unfold step_writes, last_write.
  destruct (prevVersion v) as [prev|]; simpl; by rewrite ?HD.
Qed.

Section pass1_writes.
Variable D : Version → ReleaseType → list instant.

Lemma range_releases_writes v t n i r :
  (∀ v t, dates r v t = D v t) →
  (i + n)%nat = length (D v t) →
  range_releases id (λ s, closure_step s v t) v t i n r =
  ws ← bucket_writes_from D v t i (drop i (D v t));
  Some (apply_writes ws r).
Proof.
  revert i r. induction n as [|n IH]; intros i r HD Hlen.
  - rewrite drop_ge by lia. done.
  - assert (Hi : (i < length (bucket r v t))%nat).
    { rewrite <- dates_length, HD. lia. }
    destruct (lookup_lt_is_Some_2 _ _ Hi) as [rel Hrel].
    cbn [range_releases].
    change (bucket (id r) v t !! i) with (bucket r v t !! i).
    rewrite Hrel. simpl.
    assert (Hd : D v t !! i = Some (date rel)).
    { rewrite <- HD. unfold dates. by rewrite list_lookup_fmap, Hrel. }
    rewrite (drop_S _ _ _ Hd). cbn [bucket_writes_from].
    rewrite closure_step_writes by done.
    assert (Hsame : step_writes (dates r) v t i (date rel)
                    = step_writes D v t i (date rel)).
    { by apply step_writes_ext. }
    rewrite Hsame.
    destruct (step_writes D v t i (date rel)) as [ws|]; [|done]. simpl.
    rewrite IH.
    + destruct (bucket_writes_from D v t (S i) _) as [ws'|]; [|done].
      simpl. by rewrite apply_writes_app.
    + intros v' t'. by rewrite apply_writes_dates.
    + lia.
Qed.

Lemma range_buckets_writes bs r :
  (∀ v t, dates r v t = D v t) →
  range_buckets id closure_step bs r =
  ws ← all_writes D bs; Some (apply_writes ws r).
Proof.
  revert r. induction bs as [|[v t] bs IH]; intros r HD; [done|].
  cbn [range_buckets all_writes].
  rewrite (range_releases_writes v t _ 0 r HD).
  2:{ unfold id. by rewrite <- dates_length, HD. }
  rewrite drop_0.
  destruct (bucket_writes_from D v t 0 (D v t)) as [ws|]; [|done]. simpl.
  rewrite IH.
  - destruct (all_writes D bs) as [ws'|]; [|done].
    simpl. by rewrite apply_writes_app.
  - intros v' t'. by rewrite apply_writes_dates.
Qed.
End pass1_writes.

(** The first loop writes what [all_writes] lists, in that order. *)
Lemma pass1_writes o r :
  pass1 o r =
  ws ← all_writes (dates r) (buckets_of o); Some (apply_writes ws r).
Proof.
  unfold pass1. rewrite range_versions_buckets.
  by apply range_buckets_writes.
Qed.

(** ** Iteration orders and the first loop *)

Lemma consistent_cons w ws : consistent (w :: ws) → consistent ws.
Proof. intros Hc w1 w2 H1 H2. apply Hc; by apply list_elem_of_further. Qed.

Lemma consistent_perm ws1 ws2 : ws1 ≡ₚ ws2 → consistent ws1 → consistent ws2.
Proof. intros Hp Hc w1 w2 H1 H2. apply Hc; by rewrite Hp. Qed.

Lemma apply_write_commute r (x y : write) :
  (target x = target y → x.2 = y.2) →
  apply_write (apply_write r y) x = apply_write (apply_write r x) y.
Proof.
  destruct x as [[[v1 t1] i1] d1], y as [[[v2 t2] i2] d2].
  unfold apply_write, target. simpl. intros Hd.
  destruct (decide ((v1, t1, i1) = (v2, t2, i2))) as [Heq|Hne].
  - rewrite (Hd Heq). by inversion Heq.
  - by apply close_commute.
Qed.

Lemma apply_writes_perm ws1 ws2 :
  ws1 ≡ₚ ws2 → consistent ws1 →
  ∀ r, apply_writes ws1 r = apply_writes ws2 r.
Proof.
  induction 1 as [|x l l' Hp IH|x y l|l l' l'' Hp1 IH1 Hp2 IH2];
    intros Hc r; simpl.
  - done.
  - apply IH. by eapply consistent_cons.
  - f_equal. apply apply_write_commute.
    apply Hc; [apply list_elem_of_further|]; apply list_elem_of_here.
  - rewrite IH1 by done. apply IH2. by eapply consistent_perm.
Qed.

Lemma all_writes_perm D bs1 bs2 :
  bs1 ≡ₚ bs2 →
  match all_writes D bs1, all_writes D bs2 with
  | Some ws1, Some ws2 => ws1 ≡ₚ ws2
  | None, None => True
  | _, _ => False
  end.
Proof.
  induction 1 as [|[v t] l l' Hp IH|[v1 t1] [v2 t2] l|l l' l'' Hp1 IH1 Hp2 IH2];
    simpl.
  - done.
  - destruct (bucket_writes_from D v t 0 (D v t)) as [ws|]; simpl; [|done].
    destruct (all_writes D l), (all_writes D l'); simpl; try done.
    by rewrite IH.
  - destruct (bucket_writes_from D v1 t1 0 (D v1 t1)) as [ws1|],
             (bucket_writes_from D v2 t2 0 (D v2 t2)) as [ws2|],
             (all_writes D l) as [ws|]; simpl; try done.
    rewrite !(assoc_L (++)). by rewrite (comm (++) ws2 ws1).
  - destruct (all_writes D l), (all_writes D l'), (all_writes D l'');
      try done. by etrans.
Qed.

Lemma last_write_inv D v t d w :
  w ∈ last_write D v t d → ∃ i, w = (v, t, i, d) ∧ S i = length (D v t).
Proof.
  unfold last_write. destruct (length (D v t)) as [|n].
  - by intros ?%elem_of_nil.
  - intros ->%list_elem_of_singleton. by exists n.
Qed.

Lemma step_writes_closes D v t i d ws :
  D v t !! i = Some d → step_writes D v t i d = Some ws →
  ∀ w, w ∈ ws → closes D w.
Proof.
  intros Hd. unfold step_writes.
  destruct (bool_decide (t = BetaRelease) && bool_decide (i = 0%nat)) eqn:Hb.
  { intros [= <-] w Hw. by apply elem_of_nil in Hw. }
  destruct (bool_decide (t = RCRelease) && bool_decide (i = 0%nat)) eqn:Hrc.
  { apply andb_prop in Hrc as [->%bool_decide_eq_true ->%bool_decide_eq_true].
    intros [= <-] w (n & -> & Hn)%last_write_inv. by apply closes_beta. }
  destruct (bool_decide (t = GARelease) && bool_decide (i = 0%nat)) eqn:Hga.
  { apply andb_prop in Hga as [->%bool_decide_eq_true ->%bool_decide_eq_true].
    destruct (prevVersion v) as [prev|] eqn:Hprev; [|done]. simpl.
    intros [= <-] w [Hw|Hw]%elem_of_app.
    - apply last_write_inv in Hw as (n & -> & Hn). by apply closes_rc.
    - apply last_write_inv in Hw as (n & -> & Hn). by eapply closes_ga. }
  destruct i as [|j]; [done|].
  intros [= <-] w ->%list_elem_of_singleton. by apply closes_next.
Qed.

Lemma bucket_writes_from_closes D v t ds i ws :
  (∀ k d, ds !! k = Some d → D v t !! (i + k)%nat = Some d) →
  bucket_writes_from D v t i ds = Some ws →
  ∀ w, w ∈ ws → closes D w.
Proof.
  revert i ws. induction ds as [|d ds IH]; intros i ws Hds; simpl.
  - intros [= <-] w Hw. by apply elem_of_nil in Hw.
  - destruct (step_writes D v t i d) as [ws1|] eqn:Hstep; [|done]. simpl.
    destruct (bucket_writes_from D v t (S i) ds) as [ws2|] eqn:Hrest; [|done].
    intros [= <-] w [Hw|Hw]%elem_of_app.
    + eapply step_writes_closes; [|done..].
      specialize (Hds 0%nat d eq_refl). by rewrite Nat.add_0_r in Hds.
    + eapply (IH (S i)); [|done..]. intros k d' Hk.
      specialize (Hds (S k) d' Hk). by rewrite Nat.add_succ_r in Hds.
Qed.

Lemma all_writes_closes D bs ws :
  all_writes D bs = Some ws → ∀ w, w ∈ ws → closes D w.
Proof.
  revert ws. induction bs as [|[v t] bs IH]; intros ws; simpl.
  - intros [= <-] w Hw. by apply elem_of_nil in Hw.
  - destruct (bucket_writes_from D v t 0 (D v t)) as [ws1|] eqn:Hb; [|done].
    destruct (all_writes D bs) as [ws2|]; [|done]. simpl.
    intros [= <-] w [Hw|Hw]%elem_of_app.
    + by eapply (bucket_writes_from_closes D v t (D v t) 0%nat).
    + by eapply IH.
Qed.

Lemma closes_functional r w1 w2 :
  distinct_predecessors r →
  closes (dates r) w1 → closes (dates r) w2 →
  target w1 = target w2 → w1.2 = w2.2.
Proof.
  intros Hdist H1 H2 Ht. unfold target in Ht.
  assert (Hlt : ∀ v t i d, dates r v t !! S i = Some d →
                           S i ≠ length (dates r v t)).
  { intros v t i d H%lookup_lt_Some. lia. }
  assert (Hne : ∀ w d, dates r w GARelease !! 0%nat = Some d →
                       bucket r w GARelease ≠ []).
  { intros w d H Hnil. unfold dates in H. by rewrite Hnil in H. }
  destruct H1 as [v t i d Hd|v i d Hl Hd|v i d Hl Hd|w v i d Hp Hl Hd];
    destruct H2 as [v' t' i' d' Hd'|v' i' d' Hl' Hd'|v' i' d' Hl' Hd'
                   |w' v' i' d' Hp' Hl' Hd'];
    simpl in *; inversion Ht; subst; try congruence;
    try (by exfalso; eapply Hlt).
  assert (w = w') as -> by (eapply Hdist; eauto). congruence.
Qed.

Lemma all_writes_consistent r bs ws :
  distinct_predecessors r → all_writes (dates r) bs = Some ws → consistent ws.
Proof.
  intros Hdist Hws w1 w2 H1 H2.
  apply (closes_functional r); [done|by eapply all_writes_closes..].
Qed.

(** Two visits of the same buckets, in any two orders. *)
Lemma pass1_perm r o1 o2 :
  distinct_predecessors r →
  buckets_of o1 ≡ₚ buckets_of o2 →
  pass1 o1 r = pass1 o2 r.
Proof.
  intros Hdist Hperm. rewrite !pass1_writes.
  pose proof (all_writes_perm (dates r) _ _ Hperm) as Hw.
  destruct (all_writes (dates r) (buckets_of o1)) as [ws1|] eqn:H1,
           (all_writes (dates r) (buckets_of o2)) as [ws2|] eqn:H2;
    try done.
  simpl. f_equal. apply apply_writes_perm; [done|].
  by eapply all_writes_consistent.
Qed.

Lemma iteration_order_buckets r o :
  iteration_order r o → buckets_of o ≡ₚ all_buckets r.
Proof.
  intros [Hvs Hts]. unfold all_buckets. rewrite <- Hvs. clear Hvs.
  induction Hts as [|[v ts] o Hv _ IH]; [done|].
  unfold buckets_of in *. simpl in *. by rewrite IH, Hv.
Qed.

(** C6, amended: when no two versions holding GA releases have the same
    previous version, the first loop gives the same result (the same
    ledger, or a panic) whatever the orders in which the versions and the
    types are visited. *)
Theorem pass1_order_independent (r : Releases)
    (o1 o2 : list (Version * list ReleaseType)) :
  iteration_order r o1 → iteration_order r o2 →
  distinct_predecessors r →
  pass1 o1 r = pass1 o2 r.
Proof.
  intros H1 H2 Hdist. apply pass1_perm; [done|].
  by rewrite !iteration_order_buckets.
Qed.

Lemma bucket_nonempty_key (r : Releases) v t :
  bucket r v t ≠ [] → v ∈ keys r.
Proof.
  unfold bucket, keys. intros H.
  destruct (r !! v) as [m|] eqn:Hv; [|by destruct H].
  apply list_elem_of_fmap. exists (v, m). split; [done|].
  by apply elem_of_map_to_list.
Qed.

(** A check of [distinct_predecessors] over the versions of the ledger. *)
Lemma distinct_predecessors_keys (r : Releases) :
  Forall (λ w1, Forall (λ w2,
    bucket r w1 GARelease ≠ [] → bucket r w2 GARelease ≠ [] →
    is_Some (prevVersion w1) → prevVersion w1 = prevVersion w2 → w1 = w2)
    (keys r)) (keys r) →
  distinct_predecessors r.
Proof.
  intros Hall w1 w2 prev Hw1 Hw2 Hp1 Hp2.
  rewrite Forall_forall in Hall.
  specialize (Hall w1 (bucket_nonempty_key _ _ _ Hw1)).
  rewrite Forall_forall in Hall.
  apply (Hall w2 (bucket_nonempty_key _ _ _ Hw2)); try done.
  by rewrite Hp1, Hp2.
Qed.

Lemma pass1_order_independent_witness :
  let r : Releases :=
    {[ "1.6" := {[ "." := [mkRelease 10 0] ]};
       "1.7" := {[ "beta" := [mkRelease 20 0; mkRelease 30 0];
                   "rc" := [mkRelease 40 0];
                   "." := [mkRelease 50 0; mkRelease 60 0] ]} ]} in
  pass1 [("1.7", ["."; "beta"; "rc"]); ("1.6", ["."])] r =
  pass1 [("1.6", ["."]); ("1.7", ["beta"; "rc"; "."])] r.
Proof.
  intros r. apply (pass1_order_independent r).
  - compute_done.
  - compute_done.
  - apply distinct_predecessors_keys. compute_done.
Defined.

(** C6 as stated fails: the versions 1.8 and 01.8 have the same previous
    version 1.7, both close its last GA release, and the visit that comes
    last decides. *)
Lemma pass1_order_dependent :
  let out :=
    ("refs/tags/go1.7" +:+ String Tab "Mon Aug 15 14:09:32 2016 -0700"
       +:+ String Newline "refs/tags/go1.8"
       +:+ String Tab "Thu Feb 16 09:12:00 2017 -0800"
       +:+ String Newline "refs/tags/go01.8"
       +:+ String Tab "Fri Feb 17 09:12:00 2017 -0800"
       +:+ String Newline EmptyString)%string in
  let o1 := [("1.7", ["."]); ("1.8", ["."]); ("01.8", ["."])]%string in
  let o2 := [("1.7", ["."]); ("01.8", ["."]); ("1.8", ["."])]%string in
  ∃ r, MakeReleases out = Ok r ∧
       iteration_order r o1 ∧ iteration_order r o2 ∧
       (duration <$> (bucket <$> pass1 o1 r) ≫= λ b, b "1.7" "." !! 0%nat)
         = Some (Sub 1487351520000000000 1471295372000000000) ∧
       (duration <$> (bucket <$> pass1 o2 r) ≫= λ b, b "1.7" "." !! 0%nat)
         = Some (Sub 1487265120000000000 1471295372000000000).
Proof.
  cbv zeta. eexists. split; [vm_compute; reflexivity|].
  split; [compute_done|]. split; [compute_done|].
  split; by vm_compute.
Qed.

(** ** The closures made for a first GA release *)





(** ** The second loop *)

Lemma alter_bucket_id f (r : Releases) v t :
  f (bucket r v t) = bucket r v t → alter_bucket f r v t = r.
Proof.
  intros Hf. apply Releases_eq.
  - intros v'. by rewrite alter_bucket_dom.
  - intros v' t'. rewrite alter_bucket_entry. case_decide as H; [|done].
    destruct H as [<- <-]. unfold bucket in Hf.
    destruct (r !! v ≫= lookup t); simpl in *; [by rewrite Hf|done].
Qed.

Lemma fallback_step_Some clock r n v t i rel :
  bucket r v t !! i = Some rel →
  fallback_step clock (r, n) v t i rel =
  Some (if duration rel =? 0 then (close r v t i (clock n), S n) else (r, n)).
Proof.
  intros Hrel. unfold fallback_step. simpl.
  destruct (duration rel =? 0); [|done].
  rewrite SetDuration_Some; [done|]. by eapply lookup_lt_Some.
Qed.

Lemma range_releases_settle clock v t suf pre r n :
  bucket r v t = pre ++ suf →
  range_releases fst (λ s, fallback_step clock s v t) v t
    (length pre) (length suf) (r, n) =
  Some (alter_bucket (λ _, pre ++ (settle_list clock n suf).1) r v t,
        (settle_list clock n suf).2).
Proof.
  revert pre r n. induction suf as [|rel suf IH]; intros pre r n Hb.
  - simpl. rewrite alter_bucket_id; [done|]. by rewrite Hb.
  - assert (Hrel : bucket r v t !! length pre = Some rel).
    { by rewrite Hb, list_lookup_middle. }
    cbn [range_releases length]. simpl fst. rewrite Hrel.
    cbn [mbind option_bind]. rewrite (fallback_step_Some _ _ _ _ _ _ _ Hrel).
    cbn [mbind option_bind settle_list].
    destruct (duration rel =? 0) eqn:Hz.
    + assert (Hb' : bucket (close r v t (length pre) (clock n)) v t
                    = (pre ++ [set_duration (clock n) rel]) ++ suf).
      { rewrite close_bucket, decide_True by done. rewrite Hb.
        rewrite alter_app_r_alt by lia. rewrite Nat.sub_diag. simpl.
        by rewrite <- app_assoc. }
      specialize (IH _ _ (S n) Hb'). rewrite length_app in IH. simpl in IH.
      rewrite Nat.add_1_r in IH. rewrite IH.
      destruct (settle_list clock (S n) suf) as [l'' n']. simpl.
      unfold close. rewrite alter_bucket_compose. f_equal. f_equal.
      apply alter_bucket_ext. intros l. simpl. by rewrite <- app_assoc.
    + assert (Hb' : bucket r v t = (pre ++ [rel]) ++ suf).
      { by rewrite Hb, <- app_assoc. }
      specialize (IH _ _ n Hb'). rewrite length_app in IH. simpl in IH.
      rewrite Nat.add_1_r in IH. rewrite IH.
      destruct (settle_list clock n suf) as [l'' n']. simpl.
      by rewrite <- app_assoc.
Qed.

Lemma range_buckets_settle clock bs s :
  range_buckets fst (fallback_step clock) bs s =
  Some (settle_buckets clock bs s).
Proof.
  revert s. induction bs as [|[v t] bs IH]; intros [r n]; [done|].
  pose proof (range_releases_settle clock v t (bucket r v t) [] r n eq_refl)
    as H.
  cbn [length app] in H. cbn [range_buckets]. simpl fst. rewrite H.
  cbn [mbind option_bind]. apply IH.
Qed.

(** The second loop never panics. *)
Lemma pass2_settle clock o s :
  pass2 clock o s = Some (settle_buckets clock (buckets_of o) s).
Proof.
  unfold pass2. rewrite range_versions_buckets. apply range_buckets_settle.
Qed.

Lemma settle_bucket_bucket clock s b v t :
  bucket (settle_bucket clock s b).1 v t =
  if decide (b = (v, t)) then (settle_list clock s.2 (bucket s.1 v t)).1
  else bucket s.1 v t.
Proof.
  destruct b as [v' t']. unfold settle_bucket. simpl. unfold bucket at 1.
  rewrite alter_bucket_entry. case_decide as H.
  - destruct H as [-> ->]. rewrite decide_True by done. unfold bucket.
    by destruct (s.1 !! v ≫= lookup t).
  - rewrite decide_False; [done|]. intros [= -> ->]. by destruct H.
Qed.

Lemma settle_list_dates clock n l :
  date <$> (settle_list clock n l).1 = date <$> l.
Proof.
  revert n. induction l as [|rel l IH]; intros n; [done|]. simpl.
  destruct (duration rel =? 0).
  - specialize (IH (S n)). destruct (settle_list clock (S n) l).
    simpl in *. by f_equal.
  - specialize (IH n). destruct (settle_list clock n l).
    simpl in *. by f_equal.
Qed.

Lemma settle_buckets_dates clock bs s v t :
  dates (settle_buckets clock bs s).1 v t = dates s.1 v t.
Proof.
  revert s. induction bs as [|b bs IH]; intros s; [done|].
  simpl. rewrite IH. unfold dates. rewrite settle_bucket_bucket.
  case_decide; [|done]. apply settle_list_dates.
Qed.

(** *** Every release visited has a duration, unless its date is a reading
    of the clock *)

Lemma Sub_zero t u : Sub t u = 0 ↔ t = u.
Proof.
  unfold Sub, minDuration, maxDuration.
  destruct (Z.ltb_spec (t - u) (- 2 ^ 63)); [lia|].
  destruct (Z.ltb_spec (2 ^ 63 - 1) (t - u)); lia.
Qed.

Lemma settle_list_settled clock n l :
  Forall (settled clock) (settle_list clock n l).1.
Proof.
  revert n. induction l as [|rel l IH]; intros n; simpl; [constructor|].
  destruct (Z.eqb_spec (duration rel) 0) as [Hz|Hz].
  - specialize (IH (S n)). destruct (settle_list clock (S n) l). simpl in *.
    constructor; [|done]. unfold settled. simpl.
    destruct (decide (clock n = date rel)) as [Heq|Hne]; [right; by exists n|].
    left. by rewrite Sub_zero.
  - specialize (IH n). destruct (settle_list clock n l). simpl in *.
    constructor; [by left|done].
Qed.

Lemma settle_buckets_keep clock bs s v t :
  Forall (settled clock) (bucket s.1 v t) →
  Forall (settled clock) (bucket (settle_buckets clock bs s).1 v t).
Proof.
  revert s. induction bs as [|b bs IH]; intros s Hs; [done|].
  simpl. apply IH. rewrite settle_bucket_bucket.
  case_decide; [apply settle_list_settled|done].
Qed.

Lemma settle_buckets_settled clock bs s v t :
  (v, t) ∈ bs →
  Forall (settled clock) (bucket (settle_buckets clock bs s).1 v t).
Proof.
  revert s. induction bs as [|b bs IH]; intros s Hin.
  - by apply elem_of_nil in Hin.
  - simpl. apply elem_of_cons in Hin as [<-|Hin]; [|by apply IH].
    apply settle_buckets_keep. rewrite settle_bucket_bucket, decide_True by done.
    apply settle_list_settled.
Qed.

Lemma bucket_nonempty_all_buckets (r : Releases) v t :
  bucket r v t ≠ [] → (v, t) ∈ all_buckets r.
Proof.
  intros H. unfold all_buckets. apply list_elem_of_bind. exists v.
  split; [|by eapply bucket_nonempty_key].
  apply list_elem_of_fmap. exists t. split; [done|].
  unfold bucket in H. destruct (r !! v) as [m|] eqn:Hv; [|by destruct H].
  simpl in *. destruct (m !! t) as [l|] eqn:Ht; [|by destruct H].
  apply list_elem_of_fmap. exists (t, l). split; [done|].
  by apply elem_of_map_to_list.
Qed.

Lemma pass1_dates o r r1 v t :
  pass1 o r = Some r1 → dates r1 v t = dates r v t.
Proof.
  rewrite pass1_writes.
  destruct (all_writes (dates r) (buckets_of o)) as [ws|]; [|done].
  intros [= <-]. apply apply_writes_dates.
Qed.

Lemma dates_nonempty r r' v t :
  dates r' v t = dates r v t → bucket r' v t ≠ [] → bucket r v t ≠ [].
Proof.
  unfold dates. intros Hd Hne Hnil. rewrite Hnil in Hd.
  by apply fmap_nil_inv in Hd.
Qed.

(** ** Ledgers on which the first loop does not panic *)

Lemma step_writes_is_Some D v t i d :
  t = BetaRelease ∨ t = RCRelease ∨ t = GARelease →
  is_Some (parseVersion v) →
  is_Some (step_writes D v t i d).
Proof.
  intros Ht [[major minor] Hv]. unfold step_writes, prevVersion. rewrite Hv.
  simpl. destruct i as [|j].
  - destruct Ht as [->| [->| ->]]; by eexists.
  - rewrite !andb_false_r. by eexists.
Qed.

Lemma bucket_writes_from_is_Some D v t i ds :
  t = BetaRelease ∨ t = RCRelease ∨ t = GARelease →
  is_Some (parseVersion v) →
  is_Some (bucket_writes_from D v t i ds).
Proof.
  intros Ht Hv. revert i. induction ds as [|d ds IH]; intros i; simpl.
  - by eexists.
  - destruct (step_writes_is_Some D v t i d Ht Hv) as [ws ->].
    destruct (IH (S i)) as [ws' ->]. by eexists.
Qed.

Lemma all_writes_is_Some r bs :
  well_formed r → is_Some (all_writes (dates r) bs).
Proof.
  intros Hwf. induction bs as [|[v t] bs [ws' IH]]; simpl; [by eexists|].
  rewrite IH.
  destruct (decide (bucket r v t = [])) as [Hnil|Hne].
  - unfold dates at 2. rewrite Hnil. by eexists.
  - destruct (Hwf v t Hne) as [Ht Hv].
    destruct (bucket_writes_from_is_Some (dates r) v t 0 (dates r v t) Ht Hv)
      as [ws ->].
    by eexists.
Qed.

Lemma pass1_is_Some o r : well_formed r → is_Some (pass1 o r).
Proof.
  intros Hwf. rewrite pass1_writes.
  destruct (all_writes_is_Some r (buckets_of o) Hwf) as [ws ->]. by eexists.
Qed.

Lemma SetDurations_is_Some o1 o2 clock r :
  well_formed r → is_Some (SetDurations o1 o2 clock r).
Proof.
  intros Hwf. unfold SetDurations.
  destruct (pass1_is_Some o1 r Hwf) as [r1 ->]. simpl.
  rewrite pass2_settle. by eexists.
Qed.

(** *** The ledgers that [MakeReleases] builds are well formed *)

Lemma bucket_insert (r : Releases) m v t l v' t' :
  bucket (<[v := <[t := l]> m]> r) v' t' =
  if decide (v = v')
  then (if decide (t = t') then l else default [] (m !! t'))
  else bucket r v' t'.
Proof.
  unfold bucket. destruct (decide (v = v')) as [->|Hv].
  - rewrite lookup_insert_eq. simpl. destruct (decide (t = t')) as [->|Ht].
    + by rewrite lookup_insert_eq.
    + by rewrite lookup_insert_ne.
  - by rewrite lookup_insert_ne.
Qed.

Lemma Add_bucket r version typ num d r' v t :
  Add r version typ num d = Some r' →
  bucket r' v t = bucket r v t ∨
  (v = version ∧ t = typ ∧ bucket r' v t = bucket r v t ++ [mkRelease d 0]).
Proof.
  unfold Add. destruct (nextVersion version) as [next|]; [|done]. simpl.
  destruct (has_bucket _ next GARelease && bool_decide (typ = GARelease)).
  - intros [= <-]. left. apply make_version_bucket.
  - intros [= <-]. rewrite bucket_insert.
    destruct (decide (version = v)) as [->|Hv].
    + destruct (decide (typ = t)) as [->|Ht].
      * right. by rewrite make_version_bucket.
      * left. rewrite <- (make_version_bucket r v v t). unfold bucket.
        by destruct (make_version r v !! v).
    + left. apply make_version_bucket.
Qed.

Lemma match_type_alternative alts s typ n d rest :
  match_type alts s = Some (typ, n, d, rest) → typ ∈ alts.
Proof.
  induction alts as [|alt alts IH]; simpl; [done|].
  destruct (strip_prefix alt s ≫= match_num) as [[[n' d'] rest']|].
  - intros [= <- <- <- <-]. apply list_elem_of_here.
  - intros H. apply list_elem_of_further. by apply IH.
Qed.

Lemma match_tag_type s t rest :
  match_tag s = Some (t, rest) → tag2 t ∈ type_alternatives.
Proof.
  intros H. destruct (match_tag_inv _ _ _ H) as (s1 & a & b & Hm & _).
  destruct (match_version_inv _ _ _ _ _ _ _ Hm) as (_ & _ & _ & _ & s' & Hk).
  by eapply match_type_alternative.
Qed.

(** Every tag found is a match of the pattern somewhere in the text. *)
Lemma FindAllStringSubmatch_match s skip t :
  t ∈ FindAllStringSubmatch s skip → ∃ s' rest, match_tag s' = Some (t, rest).
Proof.
  revert skip. induction s as [|c s IH]; intros skip; simpl.
  - by intros ?%elem_of_nil.
  - destruct skip as [|n]; [|apply IH].
    destruct (match_tag (String c s)) as [[t' rest]|] eqn:Hm; [|apply IH].
    intros [->|Hin]%elem_of_cons; [by eexists _, _|by eapply IH].
Qed.

Lemma add_tags_well_formed parse tags r r' :
  Forall (λ t, tag2 t ∈ type_alternatives) tags →
  well_formed r → add_tags parse tags r = Ok r' → well_formed r'.
Proof.
  intros Htags. revert r. induction Htags as [|t tags Ht _ IH]; intros r Hwf.
  - by intros [= <-].
  - simpl. destruct (release_number t) as [num|]; [|done].
    destruct (parse (tag4 t)) as [d|]; [|done].
    destruct (Add r (tag1 t) _ num d) as [r1|] eqn:Hadd; [|done].
    apply IH. intros v ty Hne.
    destruct (Add_bucket _ _ _ _ _ _ v ty Hadd) as [Heq|(-> & -> & _)].
    + apply Hwf. by rewrite <- Heq.
    + split.
      * unfold type_alternatives in Ht.
        rewrite !elem_of_cons, elem_of_nil in Ht.
        destruct Ht as [->| [->| [->| [->|[]]]]]; simpl; auto.
      * eapply Add_is_Some. by rewrite Hadd.
Qed.

Lemma MakeReleases_well_formed out r :
  MakeReleases out = Ok r → well_formed r.
Proof.
  apply add_tags_well_formed.
  - apply Forall_forall. intros t (s' & rest & Hm)%FindAllStringSubmatch_match.
    by eapply match_tag_type.
  - intros v t H. by destruct H.
Qed.

(** ** Coverage by the second loop *)

(** C3, amended: on a well-formed ledger (such as [MakeReleases] builds)
    [SetDurations] returns, and in the ledger it returns every release has
    a duration other than zero, except a release whose date is equal to a
    reading of the clock. *)
Theorem SetDurations_settles (r : Releases)
    (o1 o2 : list (Version * list ReleaseType)) (clock : nat → instant) :
  iteration_order r o2 →
  (well_formed r → is_Some (SetDurations o1 o2 clock r)) ∧
  ∀ r' n, SetDurations o1 o2 clock r = Some (r', n) →
    ∀ v t i rel, bucket r' v t !! i = Some rel →
                 (∀ k, clock k ≠ date rel) → duration rel ≠ 0.
Proof.
  intros Ho2. split; [apply SetDurations_is_Some|].
  intros r' n Hset v t i rel Hrel Hclock. unfold SetDurations in Hset.
  destruct (pass1 o1 r) as [r1|] eqn:Hp1; [|done]. simpl in Hset.
  rewrite pass2_settle in Hset. injection Hset as Hset.
  assert (Hr' : r' = (settle_buckets clock (buckets_of o2) (r1, 0%nat)).1).
  { by rewrite Hset. }
  assert (Hin : (v, t) ∈ buckets_of o2).
  { rewrite (iteration_order_buckets _ _ Ho2).
    apply bucket_nonempty_all_buckets.
    apply (dates_nonempty r r1); [by eapply pass1_dates|].
    apply (dates_nonempty r1 r').
    { rewrite Hr'. apply settle_buckets_dates. }
    intros Hnil. by rewrite Hnil in Hrel. }
  pose proof (settle_buckets_settled clock _ (r1, 0%nat) v t Hin) as Hall.
  rewrite <- Hr' in Hall. rewrite Forall_lookup in Hall.
  destruct (Hall i rel Hrel) as [Hd|[k Hk]]; [done|]. by destruct (Hclock k).
Qed.

Lemma SetDurations_settles_witness :
  let r : Releases :=
    {[ "1.7" := {[ "beta" := [mkRelease 20 0; mkRelease 30 0];
                   "rc" := [mkRelease 40 0] ]} ]} in
  let o := [("1.7"%string, ["beta"; "rc"]%string)] in
  let clock := λ k : nat, 100 + Z.of_nat k in
  (well_formed r → is_Some (SetDurations o o clock r)) ∧
  ∀ r' n, SetDurations o o clock r = Some (r', n) →
    ∀ v t i rel, bucket r' v t !! i = Some rel →
                 (∀ k, clock k ≠ date rel) → duration rel ≠ 0.
Proof.
  intros r o clock. apply (SetDurations_settles r o o clock). compute_done.
Defined.

(** C3 as stated fails: the zero duration is also the mark of a release
    not yet closed, and a release whose date is the reading of the clock
    is closed with the duration zero. *)
Lemma SetDurations_zero_at_now :
  let out := ("refs/tags/go1.7beta1"
                +:+ String Tab "Thu Jun 2 10:00:23 2016 +1000"
                +:+ String Newline EmptyString)%string in
  let o := [("1.7"%string, ["beta"%string])] in
  let now := 1464825623000000000 in
  ∃ r r', MakeReleases out = Ok r ∧ iteration_order r o ∧
          SetDurations o o (λ _, now) r = Some (r', 1%nat) ∧
          bucket r' "1.7" "beta" = [mkRelease now 0].
Proof.
  cbv zeta. eexists _, _. split; [vm_compute; reflexivity|].
  split; [compute_done|]. split; vm_compute; reflexivity.
Qed.

(** ** The clock *)

Lemma settle_list_count clock n l :
  (settle_list clock n l).2 = (n + unset l)%nat.
Proof.
  revert n. induction l as [|rel l IH]; intros n; simpl.
  { unfold unset. simpl. lia. }
  unfold unset. rewrite filter_cons.
  destruct (Z.eqb_spec (duration rel) 0) as [Hz|Hz].
  - specialize (IH (S n)). destruct (settle_list clock (S n) l).
    rewrite decide_True by done. simpl in *. unfold unset in IH. lia.
  - specialize (IH n). destruct (settle_list clock n l).
    rewrite decide_False by done. simpl in *. by unfold unset in IH.
Qed.

Lemma settle_list_constant clock now n l :
  (∀ k, clock k = now) → (settle_list clock n l).1 = fallback now <$> l.
Proof.
  intros Hc. revert n. induction l as [|rel l IH]; intros n; simpl; [done|].
  unfold fallback at 1. destruct (duration rel =? 0).
  - specialize (IH (S n)). destruct (settle_list clock (S n) l).
    simpl in *. by rewrite Hc, IH.
  - specialize (IH n). destruct (settle_list clock n l).
    simpl in *. by rewrite IH.
Qed.

Lemma fallback_idemp now rel : fallback now (fallback now rel) = fallback now rel.
Proof.
  unfold fallback. destruct (duration rel =? 0) eqn:Hz; [|by rewrite Hz].
  simpl. by destruct (Sub now (date rel) =? 0).
Qed.

Lemma settle_buckets_cons clock b bs s :
  settle_buckets clock (b :: bs) s =
  settle_buckets clock bs (settle_bucket clock s b).
Proof. done. Qed.

Lemma sum_unset_ne r r' (b : Version * ReleaseType) bs :
  b ∉ bs → (∀ v t, (v, t) ≠ b → bucket r' v t = bucket r v t) →
  sum_list_with (λ b, unset (bucket r' b.1 b.2)) bs =
  sum_list_with (λ b, unset (bucket r b.1 b.2)) bs.
Proof.
  intros Hb Hr. induction bs as [|[v t] bs IH]; [done|]. simpl.
  apply not_elem_of_cons in Hb as [Hne Hb]. rewrite IH by done.
  by rewrite Hr.
Qed.

Lemma settle_buckets_count clock bs r n :
  NoDup bs →
  (settle_buckets clock bs (r, n)).2 =
  (n + sum_list_with (λ b, unset (bucket r b.1 b.2)) bs)%nat.
Proof.
  intros Hnd. revert r n.
  induction Hnd as [|b bs Hb _ IH]; intros r n.
  { simpl. lia. }
  rewrite settle_buckets_cons.
  destruct (settle_bucket clock (r, n) b) as [r' n'] eqn:E.
  rewrite IH. unfold settle_bucket in E. simpl in E.
  injection E as Hr' Hn'. rewrite settle_list_count in Hn'.
  rewrite (sum_unset_ne r r' b) by
    (try done; intros v t Hne; rewrite <- Hr';
     apply alter_bucket_bucket_ne; destruct b; simpl; congruence).
  simpl. lia.
Qed.

Lemma elem_of_keys {A} (m : gmap string A) k : k ∈ keys m ↔ is_Some (m !! k).
Proof.
  unfold keys. rewrite list_elem_of_fmap. split.
  - intros ([k' x] & -> & Hin). apply elem_of_map_to_list in Hin.
    by eexists.
  - intros [x Hx]. exists (k, x). split; [done|].
    by apply elem_of_map_to_list.
Qed.

Lemma elem_of_all_buckets (r : Releases) v t :
  (v, t) ∈ all_buckets r ↔ is_Some (r !! v ≫= lookup t).
Proof.
  unfold all_buckets. rewrite list_elem_of_bind. split.
  - intros (v' & Hin & Hv). apply list_elem_of_fmap in Hin as (t' & [= -> ->] & Ht).
    apply elem_of_keys in Ht. apply elem_of_keys in Hv as [m Hm].
    rewrite Hm in Ht |- *. done.
  - intros Hs. destruct (r !! v) as [m|] eqn:Hm; [|by destruct Hs].
    exists v. split; [|apply elem_of_keys; by rewrite Hm].
    apply list_elem_of_fmap. exists t. split; [done|].
    apply elem_of_keys. by rewrite Hm.
Qed.

Lemma NoDup_keys {A} (m : gmap string A) : NoDup (keys m).
Proof. apply NoDup_fst_map_to_list. Qed.

Lemma NoDup_all_buckets (r : Releases) : NoDup (all_buckets r).
Proof.
  unfold all_buckets. apply NoDup_bind.
  - intros v1 v2 [v t] _ _ H1 H2.
    apply list_elem_of_fmap in H1 as (? & [= -> _] & _).
    by apply list_elem_of_fmap in H2 as (? & [= -> _] & _).
  - intros v _. apply NoDup_fmap_2; [|apply NoDup_keys].
    by intros ?? [= ->].
  - apply NoDup_keys.
Qed.

Lemma all_buckets_perm (r r' : Releases) :
  (∀ v t, is_Some (r' !! v ≫= lookup t) ↔ is_Some (r !! v ≫= lookup t)) →
  all_buckets r' ≡ₚ all_buckets r.
Proof.
  intros H. apply NoDup_Permutation; [apply NoDup_all_buckets..|].
  intros [v t]. by rewrite !elem_of_all_buckets.
Qed.

Lemma apply_writes_entry ws (r : Releases) v t :
  is_Some (apply_writes ws r !! v ≫= lookup t) ↔ is_Some (r !! v ≫= lookup t).
Proof.
  revert r. induction ws as [|[[[v' t'] i] d] ws IH]; intros r; [done|].
  simpl. rewrite IH. unfold apply_write, close. simpl.
  rewrite alter_bucket_entry. case_decide as H; [|done].
  destruct H as [-> ->]. by rewrite fmap_is_Some.
Qed.

Lemma pass1_all_buckets o r r1 :
  pass1 o r = Some r1 → all_buckets r1 ≡ₚ all_buckets r.
Proof.
  rewrite pass1_writes.
  destruct (all_writes (dates r) (buckets_of o)) as [ws|]; [|done].
  intros [= <-]. apply all_buckets_perm. intros v t. apply apply_writes_entry.
Qed.

(** With a clock that always reads [now], the second loop is the fallback
    of the specification on the buckets it visits. *)
Lemma settle_buckets_entry clock now bs r n v t :
  (∀ k, clock k = now) →
  (settle_buckets clock bs (r, n)).1 !! v ≫= lookup t =
  if decide ((v, t) ∈ bs)
  then (λ l : list Release, fallback now <$> l) <$> (r !! v ≫= lookup t)
  else r !! v ≫= lookup t.
Proof.
  intros Hc. revert r n. induction bs as [|[v' t'] bs IH]; intros r n.
  { by rewrite decide_False by apply not_elem_of_nil. }
  rewrite settle_buckets_cons.
  destruct (settle_bucket clock (r, n) (v', t')) as [r' n'] eqn:E.
  unfold settle_bucket in E. simpl in E. injection E as Hr' _.
  rewrite (settle_list_constant clock now) in Hr' by done.
  rewrite IH, <- Hr', alter_bucket_entry.
  destruct (decide (v' = v ∧ t' = t)) as [[-> ->]|Hne].
  - rewrite (decide_True (P := (v, t) ∈ (v, t) :: bs))
      by apply list_elem_of_here.
    unfold bucket. destruct (r !! v ≫= lookup t) as [l|]; simpl.
    + case_decide; [|done]. simpl. f_equal. rewrite <- list_fmap_compose.
      apply list_fmap_ext. intros ???. apply fallback_idemp.
    + by case_decide.
  - destruct (decide ((v, t) ∈ bs)) as [Hin|Hnin].
    + by rewrite decide_True by by apply list_elem_of_further.
    + rewrite decide_False; [done|].
      intros [[= -> ->]|?]%elem_of_cons; [by destruct Hne|done].
Qed.

Lemma settle_buckets_dom clock bs s v :
  is_Some ((settle_buckets clock bs s).1 !! v) ↔ is_Some (s.1 !! v).
Proof.
  revert s. induction bs as [|b bs IH]; intros s; [done|].
  rewrite settle_buckets_cons, IH. unfold settle_bucket. simpl.
  apply alter_bucket_dom.
Qed.

Lemma fallback_all_entry now (r : Releases) v t :
  fallback_all now r !! v ≫= lookup t =
  (λ l : list Release, fallback now <$> l) <$> (r !! v ≫= lookup t).
Proof.
  unfold fallback_all. rewrite lookup_fmap.
  destruct (r !! v) as [m|]; simpl; [|done]. by rewrite lookup_fmap.
Qed.

(** C5, amended: [SetDurations] reads the clock once for every release
    whose duration is zero after the first loop, each reading closing one
    release; when all the readings are the same instant [now], the ledger
    it returns is the one of the duration assignment with [now] given as a
    parameter. *)
Theorem SetDurations_clock (r : Releases)
    (o1 o2 : list (Version * list ReleaseType)) (clock : nat → instant) :
  iteration_order r o2 →
  (∀ r' n, SetDurations o1 o2 clock r = Some (r', n) →
           ∃ r1, pass1 o1 r = Some r1 ∧ n = unset_count r1) ∧
  ∀ now, (∀ k, clock k = now) →
         fst <$> SetDurations o1 o2 clock r = assignDurations o1 now r.
Proof.
  intros Ho2. unfold SetDurations, assignDurations.
  destruct (pass1 o1 r) as [r1|] eqn:Hp1; simpl; [|by split].
  rewrite pass2_settle.
  pose proof (iteration_order_buckets _ _ Ho2) as Hbs.
  pose proof (pass1_all_buckets _ _ _ Hp1) as Hb1.
  split.
  - intros r' n [= Heq]. exists r1. split; [done|].
    change n with (r', n).2. rewrite <- Heq.
    rewrite settle_buckets_count by (rewrite Hbs; apply NoDup_all_buckets).
    unfold unset_count. by rewrite Hbs, Hb1.
  - intros now Hc. simpl. f_equal. apply Releases_eq.
    + intros v. rewrite settle_buckets_dom. simpl. unfold fallback_all.
      by rewrite lookup_fmap, fmap_is_Some.
    + intros v t. rewrite (settle_buckets_entry clock now) by done.
      rewrite fallback_all_entry. case_decide as Hin; [done|].
      destruct (r1 !! v ≫= lookup t) as [l|] eqn:Hl; [|done].
      destruct Hin. rewrite Hbs, <- Hb1. apply elem_of_all_buckets.
      by rewrite Hl.
Qed.

Lemma SetDurations_clock_witness :
  let r : Releases :=
    {[ "1.7" := {[ "beta" := [mkRelease 20 0; mkRelease 30 0];
                   "rc" := [mkRelease 40 0] ]} ]} in
  let o1 := [("1.7"%string, ["rc"; "beta"]%string)] in
  let o2 := [("1.7"%string, ["beta"; "rc"]%string)] in
  let clock := λ _ : nat, 100 in
  (∀ r' n, SetDurations o1 o2 clock r = Some (r', n) →
           ∃ r1, pass1 o1 r = Some r1 ∧ n = unset_count r1) ∧
  ∀ now, (∀ k, clock k = now) →
         fst <$> SetDurations o1 o2 clock r = assignDurations o1 now r.
Proof.
  intros r o1 o2 clock. apply (SetDurations_clock r o1 o2 clock). compute_done.
Defined.

Lemma fallback_all_bucket now (r : Releases) v t :
  bucket (fallback_all now r) v t = fallback now <$> bucket r v t.
Proof.
  unfold bucket. rewrite fallback_all_entry.
  by destruct (r !! v ≫= lookup t).
Qed.

(** Two releases that the first loop leaves open and that are closed at
    two different readings: no single [now] closes both the same way. *)
Lemma assignDurations_one_now (o : list (Version * list ReleaseType))
    (r r' : Releases) (v1 v2 : Version) (t1 t2 : ReleaseType)
    (d1 d2 c1 c2 : instant) :
  pass1 o r = Some r →
  bucket r v1 t1 = [mkRelease d1 0] → bucket r v2 t2 = [mkRelease d2 0] →
  bucket r' v1 t1 = [mkRelease d1 (c1 - d1)] →
  bucket r' v2 t2 = [mkRelease d2 (c2 - d2)] →
  minDuration < c1 - d1 < maxDuration → minDuration < c2 - d2 < maxDuration →
  c1 ≠ c2 →
  ∀ now, assignDurations o now r ≠ Some r'.
Proof.
  intros Hp Hb1 Hb2 Hc1 Hc2 Hr1 Hr2 Hne now H.
  unfold assignDurations in H. rewrite Hp in H. simpl in H.
  injection H as H. rewrite <- H in Hc1, Hc2.
  rewrite fallback_all_bucket in Hc1, Hc2. rewrite Hb1 in Hc1.
  rewrite Hb2 in Hc2. unfold fallback in Hc1, Hc2. simpl in Hc1, Hc2.
  injection Hc1 as Hc1. injection Hc2 as Hc2.
  unfold Sub, minDuration, maxDuration in *.
  destruct (Z.ltb_spec (now - d1) (- 2 ^ 63)); [lia|].
  destruct (Z.ltb_spec (2 ^ 63 - 1) (now - d1)); [lia|].
  destruct (Z.ltb_spec (now - d2) (- 2 ^ 63)); [lia|].
  destruct (Z.ltb_spec (2 ^ 63 - 1) (now - d2)); lia.
Qed.

(** C5 as stated fails: with two releases left open by the first loop the
    clock is read twice, and when the two readings differ no single value
    of [now] gives the ledger that [SetDurations] returns. *)
Lemma SetDurations_reads_clock_twice :
  let out := ("refs/tags/go1.7beta1"
                +:+ String Tab "Thu Jun 2 10:00:23 2016 +1000"
                +:+ String Newline "refs/tags/go1.8beta1"
                +:+ String Tab "Thu Dec 1 10:00:00 2016 -0800"
                +:+ String Newline EmptyString)%string in
  let r : Releases :=
    {[ "1.7" := {[ "beta" := [mkRelease 1464825623000000000 0] ]};
       "1.8" := {[ "beta" := [mkRelease 1480615200000000000 0] ]} ]} in
  let r' : Releases :=
    {[ "1.7" := {[ "beta" := [mkRelease 1464825623000000000
                                         35174377000000000] ]};
       "1.8" := {[ "beta" := [mkRelease 1480615200000000000
                                         19384800000000001] ]} ]} in
  let o := [("1.7", ["beta"]); ("1.8", ["beta"])]%string in
  let clock := λ k : nat, 1500000000000000000 + Z.of_nat k in
  MakeReleases out = Ok r ∧ iteration_order r o ∧
  SetDurations o o clock r = Some (r', 2%nat) ∧
  ∀ now, assignDurations o now r ≠ Some r'.
Proof.
  cbv zeta.
  split; [vm_compute; reflexivity|]. split; [compute_done|].
  split; [vm_compute; reflexivity|].
  apply (assignDurations_one_now _ _ _ "1.7" "1.8" "beta" "beta"
           1464825623000000000 1480615200000000000
           1500000000000000000 1500000000000000001);
    try (vm_compute; reflexivity); try done; unfold minDuration, maxDuration;
    lia.
Qed.

(** ** A scenario: two betas and a release candidate *)









(** * Further properties of the code *)

(** ** The pipeline of [main] *)

(** X1: on the ledger that [MakeReleases] returns, [SetDurations] does not
    panic, whatever the text read, the iteration orders and the clock. *)
Theorem MakeReleases_then_SetDurations (out : string) (r : Releases)
    (o1 o2 : list (Version * list ReleaseType)) (clock : nat → instant) :
  MakeReleases out = Ok r → is_Some (SetDurations o1 o2 clock r).
Proof.
  intros Hmk. apply SetDurations_is_Some. by eapply MakeReleases_well_formed.
Qed.

Lemma MakeReleases_then_SetDurations_witness :
  let out := ("refs/tags/go1.7rc1"
                +:+ String Tab "Thu Jul 7 16:41:29 2016 -0700"
                +:+ String Newline "refs/tags/go1.7"
                +:+ String Tab "Mon Aug 15 14:09:32 2016 -0700"
                +:+ String Newline EmptyString)%string in
  let r : Releases :=
    {[ "1.7" := {[ "rc" := [mkRelease 1467934889000000000 0];
                   "." := [mkRelease 1471295372000000000 0] ]} ]} in
  is_Some (SetDurations [("1.7"%string, ["rc"; "."]%string)]
                        [("1.7"%string, ["."; "rc"]%string)]
                        (λ _, 1500000000000000000) r).
Proof.
  intros out r. apply (MakeReleases_then_SetDurations out r).
  vm_compute. reflexivity.
Defined.

(** ** What [MakeReleases] puts in the ledger *)

Lemma add_tags_from_tags parse all tags r r' :
  (∀ tg, tg ∈ tags → tg ∈ all) →
  from_tags parse all r → add_tags parse tags r = Ok r' →
  from_tags parse all r'.
Proof.
  revert r. induction tags as [|tg tags IH]; intros r Hsub Hinv.
  - by intros [= <-].
  - simpl. destruct (release_number tg) as [num|]; [|done].
    destruct (parse (tag4 tg)) as [d|] eqn:Hd; [|done].
    destruct (Add r (tag1 tg) _ num d) as [r1|] eqn:Hadd; [|done].
    apply IH; [intros ??; apply Hsub; by apply list_elem_of_further|].
    intros v t i rel Hrel.
    destruct (Add_bucket _ _ _ _ _ _ v t Hadd) as [Heq|(-> & -> & Heq)].
    + apply (Hinv v t i). by rewrite <- Heq.
    + rewrite Heq in Hrel. apply lookup_app_Some in Hrel as [Hrel|[_ Hrel]].
      * by apply (Hinv _ _ i).
      * apply list_lookup_singleton_Some in Hrel as [_ <-]. split; [done|].
        exists tg. split; [apply Hsub, list_elem_of_here|done].
Qed.

(** X2: every release of the ledger that [MakeReleases] returns has the
    duration zero, the version and the type (the dot when none is written)
    of a matched tag and the date parsed from it; its type is one of the
    three and its version is one [parseVersion] accepts. *)
Theorem MakeReleases_releases (out : string) (r : Releases)
    (v : Version) (t : ReleaseType) (i : nat) (rel : Release) :
  MakeReleases out = Ok r → bucket r v t !! i = Some rel →
  duration rel = 0 ∧
  (t = BetaRelease ∨ t = RCRelease ∨ t = GARelease) ∧
  is_Some (parseVersion v) ∧
  ∃ tg, tg ∈ FindAllStringSubmatch out 0 ∧ tag1 tg = v ∧
        t = (if bool_decide (tag2 tg = EmptyString) then GARelease
             else tag2 tg) ∧
        gotime.Parse (tag4 tg) = Some (date rel).
Proof.
  intros Hmk Hrel.
  assert (Hne : bucket r v t ≠ []) by (intros Hnil; by rewrite Hnil in Hrel).
  destruct (MakeReleases_well_formed out r Hmk v t Hne) as [Ht Hv].
  assert (Hfrom : from_tags gotime.Parse (FindAllStringSubmatch out 0) r).
  { eapply add_tags_from_tags; [|..|exact Hmk]; [done|].
    intros v' t' i' rel' H. unfold bucket in H. by rewrite lookup_empty in H. }
  destruct (Hfrom v t i rel Hrel) as [Hz Htg]. done.
Qed.

Lemma MakeReleases_releases_witness :
  let out := ("refs/tags/go1.7"
                +:+ String Tab "Mon Aug 15 14:09:32 2016 -0700"
                +:+ String Newline EmptyString)%string in
  let rel := mkRelease 1471295372000000000 0 in
  duration rel = 0 ∧
  (GARelease = BetaRelease ∨ GARelease = RCRelease ∨ GARelease = GARelease) ∧
  is_Some (parseVersion "1.7") ∧
  ∃ tg, tg ∈ FindAllStringSubmatch out 0 ∧ tag1 tg = "1.7"%string ∧
        GARelease = (if bool_decide (tag2 tg = EmptyString) then GARelease
                     else tag2 tg) ∧
        gotime.Parse (tag4 tg) = Some (date rel).
Proof.
  intros out rel.
  apply (MakeReleases_releases out
           {[ "1.7" := {[ "." := [mkRelease 1471295372000000000 0] ]} ]}
           "1.7" GARelease 0 rel).
  - vm_compute. reflexivity.
  - vm_compute. reflexivity.
Defined.

(** ** The text after the last newline *)

Lemma extends_no_newline {A} (k : string → option A) ext t :
  extends k ext → no_newline t = true → k t = None.
Proof.
  intros [H0 H] Ht. specialize (H t Ht EmptyString).
  change ((EmptyString +:+ t)%string) with t in H. by rewrite H, H0.
Qed.

Lemma match_date_extends :
  extends match_date (λ tail p, (p.1, (p.2 +:+ tail)%string)).
Proof.
  split; [done|]. intros tail Htail.
  assert (Hnone : match_date tail = None).
  { induction tail as [|c t IH]; [done|]. simpl in *.
    apply andb_prop in Htail as [Hc Ht]. apply negb_true_iff in Hc.
    by rewrite Hc, (IH Ht). }
  induction s as [|c s IH]; simpl; [done|].
  destruct (Ascii.eqb c Newline); [done|]. rewrite IH.
  by destruct (match_date s) as [[? ?]|].
Qed.

Lemma match_tab_extends :
  extends match_tab (λ tail p, (p.1, (p.2 +:+ tail)%string)).
Proof.
  split; [done|]. intros tail Htail s. destruct s as [|c s]; simpl.
  - destruct tail as [|c t]; [done|]. simpl in *.
    apply andb_prop in Htail as [_ Ht].
    destruct (Ascii.eqb c Tab); [|done].
    by apply (extends_no_newline _ _ _ match_date_extends).
  - destruct (Ascii.eqb c Tab); [|done].
    by apply match_date_extends.
Qed.

Lemma match_num_extends :
  extends match_num (λ tail p, (p.1.1, p.1.2, (p.2 +:+ tail)%string)).
Proof.
  split; [done|]. intros tail Htail s.
  destruct match_tab_extends as [_ Htab].
  assert (Hempty : ∀ s,
    ('(d, rest) ← match_tab (s +:+ tail)%string; Some (EmptyString, d, rest))
    = (λ p, (p.1.1, p.1.2, (p.2 +:+ tail)%string))
        <$> ('(d, rest) ← match_tab s; Some (EmptyString, d, rest))).
  { intros s0. rewrite (Htab tail Htail).
    by destruct (match_tab s0) as [[? ?]|]. }
  destruct s as [|c s].
  - change ((EmptyString +:+ tail)%string) with tail.
    change (match_num EmptyString) with (@None (string * string * string)).
    assert (Ht : match_tab tail = None)
      by (by apply (extends_no_newline _ _ _ match_tab_extends)).
    unfold match_num. lazy zeta. rewrite Ht.
    destruct tail as [|c t]; [done|].
    assert (Ht' : match_tab t = None).
    { apply (extends_no_newline _ _ _ match_tab_extends). simpl in Htail.
      by apply andb_prop in Htail as [_ ?]. }
    rewrite Ht'. by destruct (strconv.isDigit c || Ascii.eqb c "+").
  - unfold match_num. lazy zeta.
    change ((String c s +:+ tail)%string) with (String c (s +:+ tail)%string).
    lazy iota beta.
    change (String c (s +:+ tail)%string) with ((String c s +:+ tail)%string).
    rewrite (Hempty (String c s)).
    destruct (strconv.isDigit c || Ascii.eqb c "+"); [|done].
    rewrite (Htab tail Htail s).
    by destruct (match_tab s) as [[? ?]|].
Qed.

Lemma strip_prefix_no_newline p t r :
  strip_prefix p t = Some r → no_newline t = true → no_newline r = true.
Proof.
  revert t. induction p as [|a p IH]; intros t; simpl.
  - by intros [= ->].
  - destruct t as [|b t]; [done|]. destruct (Ascii.eqb a b); [|done].
    intros H Ht. simpl in Ht. apply andb_prop in Ht as [_ Ht]. by eapply IH.
Qed.

(** A literal prefix and then [k]: the prefix may cross into the tail,
    where [k] then fails. *)
Lemma strip_then_extends {A} p (k : string → option A) ext :
  extends k ext → extends (λ s, strip_prefix p s ≫= k) ext.
Proof.
  intros Hk. split.
  - destruct p; simpl; [apply Hk|done].
  - intros tail Htail s. revert s. induction p as [|a p IH]; intros s.
    + simpl. by apply Hk.
    + destruct s as [|b s].
      * change ((EmptyString +:+ tail)%string) with tail.
        change (strip_prefix (String a p) EmptyString) with (@None string).
        destruct (strip_prefix (String a p) tail) as [r|] eqn:Hr; [|done].
        simpl. eapply extends_no_newline; [done|].
        by eapply strip_prefix_no_newline.
      * simpl. destruct (Ascii.eqb a b); [apply IH|done].
Qed.

Lemma match_type_extends alts :
  extends (match_type alts)
          (λ tail p, (p.1.1.1, p.1.1.2, p.1.2, (p.2 +:+ tail)%string)).
Proof.
  induction alts as [|alt alts [IH0 IH]].
  - split; [done|]. by intros tail Htail s.
  - pose proof (strip_then_extends alt _ _ match_num_extends) as [H0 H].
    split.
    + simpl. simpl in H0. by rewrite H0.
    + intros tail Htail s. simpl. rewrite (H tail Htail s), (IH tail Htail s).
      by destruct (strip_prefix alt s ≫= match_num) as [[[? ?] ?]|].
Qed.

Lemma digits_then_extends {A} (k : string → option A) ext :
  extends k ext →
  extends (digits_then k) (λ tail p, (p.1, ext tail p.2)).
Proof.
  intros Hk. split; [done|]. intros tail Htail.
  assert (Hnone : ∀ t, no_newline t = true → digits_then k t = None).
  { induction t as [|c t IH]; [done|]. simpl. intros Ht.
    apply andb_prop in Ht as [_ Ht]. rewrite (IH Ht).
    rewrite (extends_no_newline _ _ _ Hk Ht).
    by destruct (strconv.isDigit c). }
  induction s as [|c s IH]; simpl.
  - by rewrite Hnone.
  - destruct (strconv.isDigit c); [|done]. rewrite IH.
    destruct (digits_then k s) as [[ds x]|]; [done|]. simpl.
    destruct Hk as [_ Hk]. rewrite (Hk tail Htail s).
    by destruct (k s).
Qed.

Lemma match_dot_extends {A} (k : string → option A) ext :
  extends k ext → extends (match_dot k) ext.
Proof.
  intros Hk. split; [done|]. intros tail Htail s. destruct s as [|c s]; simpl.
  - destruct tail as [|c t]; [done|]. simpl in *.
    apply andb_prop in Htail as [_ Ht].
    destruct (Ascii.eqb c "."); [|done]. by eapply extends_no_newline.
  - destruct (Ascii.eqb c "."); [|done]. by apply Hk.
Qed.

Lemma match_tag_extends :
  extends match_tag (λ tail p, (p.1, (p.2 +:+ tail)%string)).
Proof.
  pose proof (digits_then_extends _ _
                (match_dot_extends _ _
                   (digits_then_extends _ _
                      (match_type_extends type_alternatives)))) as Hv.
  change (digits_then _) with match_version in Hv.
  pose proof (strip_then_extends "go" _ _ Hv) as [H0 H].
  set (f := λ p : string * (string * (string * string * string * string)),
         let '(major, (minor, (typ, num, d, rest))) := p in
         let version := (major +:+ "." +:+ minor)%string in
         let whole := ("go" +:+ version +:+ typ +:+ num
                         +:+ String Tab d +:+ String Newline EmptyString)%string in
         Some (mkTag whole version typ num d, rest)).
  assert (Hform : ∀ s, match_tag s
                       = (strip_prefix "go" s ≫= match_version) ≫= f).
  { intros s. unfold match_tag. by destruct (strip_prefix "go" s). }
  split; [done|]. intros tail Htail s.
  rewrite !Hform, (H tail Htail s).
  by destruct (strip_prefix "go" s ≫= match_version)
    as [[a [b [[[ty n] d] rest]]]|].
Qed.

(** X3: the text after the last newline plays no part: a tail without
    newline added to the text changes neither the tags found nor the
    result of [MakeReleases]; a last line that no newline ends is not
    read. *)
Theorem text_after_last_newline (s tail : string) :
  no_newline tail = true →
  FindAllStringSubmatch (s +:+ tail) 0 = FindAllStringSubmatch s 0 ∧
  MakeReleases (s +:+ tail) = MakeReleases s.
Proof.
  intros Htail. destruct match_tag_extends as [_ Hext].
  assert (Hnone : ∀ t skip, no_newline t = true →
                            FindAllStringSubmatch t skip = []).
  { induction t as [|c t IH]; intros skip Ht; [done|]. simpl.
    assert (Ht' : no_newline t = true)
      by (simpl in Ht; by apply andb_prop in Ht as [_ ?]).
    destruct skip; [|by apply IH].
    rewrite (extends_no_newline _ _ _ match_tag_extends Ht). by apply IH. }
  assert (Hall : ∀ s skip, FindAllStringSubmatch (s +:+ tail) skip
                           = FindAllStringSubmatch s skip).
  { clear s. induction s as [|c s IH]; intros skip.
    - simpl. rewrite Hnone by done. by destruct skip.
    - change ((String c s +:+ tail)%string)
        with (String c (s +:+ tail)%string).
      cbn [FindAllStringSubmatch]. destruct skip; [|apply IH].
      change (String c (s +:+ tail)%string)
        with ((String c s +:+ tail)%string).
      rewrite (Hext tail Htail (String c s)).
      destruct (match_tag (String c s)) as [[t rest]|]; simpl.
      + by rewrite IH.
      + apply IH. }
  split; [apply Hall|].
  unfold MakeReleases, MakeReleases_with. by rewrite Hall.
Qed.

Lemma text_after_last_newline_witness :
  let s := ("go1.7" +:+ String Tab "Mon Aug 15 14:09:32 2016 -0700"
              +:+ String Newline EmptyString)%string in
  let tail := ("go1.7.1" +:+ String Tab "Wed Sep 7 12:11:12 2016 -0700")%string in
  FindAllStringSubmatch (s +:+ tail) 0 = FindAllStringSubmatch s 0 ∧
  MakeReleases (s +:+ tail) = MakeReleases s.
Proof.
  intros s tail. apply (text_after_last_newline s tail). reflexivity.
Defined.

(** ** The number of a tag *)

Lemma match_num_cases s n d rest :
  match_num s = Some (n, d, rest) →
  n = EmptyString ∨
  ∃ c, n = String c EmptyString ∧ (strconv.isDigit c || Ascii.eqb c "+") = true.
Proof.
  unfold match_num. intros H.
  assert (Hempty : ∀ s, ('(d, rest) ← match_tab s; Some (EmptyString, d, rest))
                        = Some (n, d, rest) → n = EmptyString).
  { intros s0 H0. destruct (match_tab s0) as [[? ?]|]; [|done].
    simpl in H0. by inversion H0. }
  destruct s as [|c s]; [left; by eapply Hempty|].
  destruct (strconv.isDigit c || Ascii.eqb c "+") eqn:Hc;
    [|left; by eapply Hempty].
  destruct (match_tab s) as [[? ?]|]; [|left; by eapply Hempty].
  inversion H; subst. right. by exists c.
Qed.

Lemma match_type_num alts s typ n d rest :
  match_type alts s = Some (typ, n, d, rest) →
  n = EmptyString ∨
  ∃ c, n = String c EmptyString ∧ (strconv.isDigit c || Ascii.eqb c "+") = true.
Proof.
  induction alts as [|alt alts IH]; simpl; [done|].
  destruct (strip_prefix alt s ≫= match_num) as [[[n' d'] rest']|] eqn:Hm.
  - intros [= <- <- <- <-]. destruct (strip_prefix alt s) as [s'|]; [|done].
    simpl in Hm. by eapply match_num_cases.
  - exact IH.
Qed.

Lemma ParseInt_one_digit c :
  strconv.isDigit c = true →
  strconv.ParseInt (String c EmptyString) = Some (strconv.digitVal c) ∧
  0 ≤ strconv.digitVal c ≤ 9.
Proof.
  intros Hc.
  assert (Hr : 0 ≤ strconv.digitVal c ≤ 9).
  { unfold strconv.isDigit, strconv.digitVal in *. lia. }
  split; [|done].
  assert (Hd : strconv.digits (String c EmptyString) 0
               = Some (strconv.digitVal c)).
  { simpl. by rewrite Hc. }
  assert (Hne : String c EmptyString ≠ EmptyString) by done.
  rewrite (ParseInt_digits _ _ Hne Hd).
  destruct (Z.leb_spec (2 ^ 63) (strconv.digitVal c)); [lia|done].
Qed.

(** X4: the number the pattern captures is empty, one digit or a plus
    sign, so the release number of a matched tag is between 0 and 9, and
    [strconv.ParseInt] fails on it exactly when the capture is the plus
    sign. *)
Theorem matched_number (s : string) (t : tag) (rest : string) :
  match_tag s = Some (t, rest) →
  (release_number t = None ↔ tag3 t = "+"%string) ∧
  ∀ n, release_number t = Some n → 0 ≤ n ≤ 9.
Proof.
  intros H. destruct (match_tag_inv _ _ _ H) as (s1 & a & b & Hm & _).
  destruct (match_version_inv _ _ _ _ _ _ _ Hm) as (_ & _ & _ & _ & s' & Hk).
  apply match_type_num in Hk. unfold release_number.
  destruct Hk as [->|(c & -> & Hc)].
  - rewrite bool_decide_eq_true_2 by done. split; [done|].
    intros n [= <-]. lia.
  - rewrite bool_decide_eq_false_2 by done.
    apply orb_true_iff in Hc as [Hc|Hc].
    + destruct (ParseInt_one_digit c Hc) as [-> Hr]. split.
      * split; [done|]. intros [= ->]. by vm_compute in Hc.
      * by intros n [= <-].
    + apply Ascii.eqb_eq in Hc as ->. split; [done|]. by vm_compute.
Qed.

Lemma matched_number_witness :
  let s := ("go1.7+" +:+ String Tab "x" +:+ String Newline EmptyString)%string in
  let t := mkTag s "1.7" "" "+" "x" in
  (release_number t = None ↔ tag3 t = "+"%string) ∧
  ∀ n, release_number t = Some n → 0 ≤ n ≤ 9.
Proof.
  intros s t. apply (matched_number s t EmptyString). vm_compute. reflexivity.
Defined.

(** ** Insertion *)

Lemma cut_dot_no_dot s :
  (∀ a b, s ≠ (a +:+ String "." b)%string) → cut_dot s = None.
Proof.
  induction s as [|c s IH]; intros Hno; simpl; [done|].
  destruct (Ascii.eqb_spec c ".") as [->|Hc].
  - by destruct (Hno EmptyString s).
  - rewrite IH; [done|]. intros a b ->. by destruct (Hno (String c a) b).
Qed.

(** X5: [Add] panics exactly when [parseVersion] rejects the version,
    whatever the type and the ledger; in particular on every version
    without a dot. *)
Theorem Add_panics (r : Releases) (version : Version) (typ : ReleaseType)
    (num : Z) (d : instant) :
  (Add r version typ num d = None ↔ parseVersion version = None) ∧
  ((∀ a b, version ≠ (a +:+ String "." b)%string) →
   Add r version typ num d = None).
Proof.
  assert (Hiff : Add r version typ num d = None ↔ parseVersion version = None).
  { rewrite !eq_None_not_Some. by rewrite Add_is_Some. }
  split; [done|]. intros Hno. apply Hiff.
  unfold parseVersion, SplitN2. rewrite (cut_dot_no_dot _ Hno). simpl.
  by destruct (strconv.ParseInt version).
Qed.

(** X6: an insertion that is not superseded (the type is not GA, or the
    next version has no GA bucket) appends the release, with the duration
    zero, at the end of its bucket and changes no other bucket. *)
Theorem Add_appends (r : Releases) (version next : Version)
    (typ : ReleaseType) (num : Z) (d : instant) :
  nextVersion version = Some next →
  typ ≠ GARelease ∨ r !! next ≫= lookup GARelease = None →
  ∃ r', Add r version typ num d = Some r' ∧
        bucket r' version typ = bucket r version typ ++ [mkRelease d 0] ∧
        ∀ v t, (v, t) ≠ (version, typ) → bucket r' v t = bucket r v t.
Proof.
  intros Hnext Hns. unfold Add. rewrite Hnext. simpl.
  assert (Hcond : has_bucket (make_version r version) next GARelease
                  && bool_decide (typ = GARelease) = false).
  { destruct Hns as [Hns|Hns].
    - by rewrite (bool_decide_eq_false_2 _ Hns), andb_false_r.
    - unfold has_bucket. rewrite make_version_lookup, Hns.
      rewrite bool_decide_eq_false_2; [done|]. by intros [? ?]. }
  rewrite Hcond. eexists. split; [done|]. split.
  - rewrite bucket_insert, !decide_True by done.
    by rewrite make_version_bucket.
  - intros v t Hne. rewrite bucket_insert.
    destruct (decide (version = v)) as [->|Hv].
    + rewrite decide_False by congruence.
      rewrite <- (make_version_bucket r v v t). unfold bucket.
      by destruct (make_version r v !! v).
    + apply make_version_bucket.
Qed.

Lemma Add_appends_witness :
  let r : Releases := {[ "1.8" := {[ "." := [mkRelease 20 0] ]};
                         "1.7" := {[ "rc" := [mkRelease 10 0] ]} ]} in
  ∃ r', Add r "1.7" RCRelease 2 30 = Some r' ∧
        bucket r' "1.7" RCRelease
          = bucket r "1.7" RCRelease ++ [mkRelease 30 0] ∧
        ∀ v t, (v, t) ≠ ("1.7"%string, RCRelease) →
               bucket r' v t = bucket r v t.
Proof.
  intros r. apply (Add_appends r "1.7" "1.8" RCRelease 2 30).
  - vm_compute. reflexivity.
  - left. vm_compute. discriminate.
Defined.

(** ** Closing one release *)

(** X7: [SetDuration] panics exactly when the index is outside the bucket;
    otherwise the release at the index keeps its date and gets the span
    from its date to the closing date, whatever duration it had, and
    nothing else in the ledger changes. *)
Theorem SetDuration_bounds (r : Releases) (v : Version) (t : ReleaseType)
    (d : instant) (idx : Z) :
  (SetDuration r v t d idx = None ↔
   idx < 0 ∨ Z.of_nat (length (bucket r v t)) ≤ idx) ∧
  ∀ r', SetDuration r v t d idx = Some r' →
    ∃ rel, bucket r v t !! Z.to_nat idx = Some rel ∧
           bucket r' v t
             = <[Z.to_nat idx := mkRelease (date rel) (Sub d (date rel))]>
                 (bucket r v t) ∧
           ∀ v' t', (v', t') ≠ (v, t) → bucket r' v' t' = bucket r v' t'.
Proof.
  unfold SetDuration. destruct (Z.ltb_spec idx 0) as [Hneg|Hpos].
  { split; [|done]. split; [by left|done]. }
  destruct (bucket r v t !! Z.to_nat idx) as [rel|] eqn:Hrel.
  - split.
    + split; [done|]. intros [?|Hge]; [lia|].
      apply lookup_lt_Some in Hrel. lia.
    + intros r' [= <-]. exists rel. split; [done|]. split.
      * rewrite close_bucket, decide_True by done. apply list_eq. intros j.
        rewrite list_lookup_alter.
        destruct (decide (Z.to_nat idx = j)) as [<-|Hne].
        -- rewrite Hrel, list_lookup_insert_eq; [done|].
           by eapply lookup_lt_Some.
        -- by rewrite list_lookup_insert_ne.
      * intros v' t' Hne. rewrite close_bucket, decide_False; [done|].
        congruence.
  - split; [|done]. split; [|done]. intros _. right.
    apply lookup_ge_None in Hrel. lia.
Qed.

(** ** What the duration assignment keeps *)

Lemma apply_writes_dom ws (r : Releases) v :
  is_Some (apply_writes ws r !! v) ↔ is_Some (r !! v).
Proof.
  revert r. induction ws as [|w ws IH]; intros r; [done|].
  simpl. rewrite IH. apply alter_bucket_dom.
Qed.

Lemma settle_buckets_is_entry clock bs s v t :
  is_Some ((settle_buckets clock bs s).1 !! v ≫= lookup t) ↔
  is_Some (s.1 !! v ≫= lookup t).
Proof.
  revert s. induction bs as [|[v' t'] bs IH]; intros s; [done|].
  rewrite settle_buckets_cons, IH. unfold settle_bucket. simpl.
  rewrite alter_bucket_entry. case_decide as H; [|done].
  destruct H as [-> ->]. by rewrite fmap_is_Some.
Qed.

(** X8: [SetDurations] changes durations only: the ledger it returns has
    the same versions, the same buckets, and in every bucket the same
    number of releases with the same dates in the same order. *)
Theorem SetDurations_keeps_dates (r r' : Releases)
    (o1 o2 : list (Version * list ReleaseType)) (clock : nat → instant)
    (n : nat) (v : Version) (t : ReleaseType) :
  SetDurations o1 o2 clock r = Some (r', n) →
  (is_Some (r' !! v) ↔ is_Some (r !! v)) ∧
  (is_Some (r' !! v ≫= lookup t) ↔ is_Some (r !! v ≫= lookup t)) ∧
  length (bucket r' v t) = length (bucket r v t) ∧
  date <$> bucket r' v t = date <$> bucket r v t.
Proof.
  unfold SetDurations. intros H.
  destruct (pass1 o1 r) as [r1|] eqn:Hp1; [|done]. simpl in H.
  rewrite pass2_settle in H. injection H as H.
  assert (Hr' : r' = (settle_buckets clock (buckets_of o2) (r1, 0%nat)).1)
    by (by rewrite H).
  pose proof (pass1_dates _ _ _ v t Hp1) as Hd1.
  pose proof (settle_buckets_dates clock (buckets_of o2) (r1, 0%nat) v t)
    as Hd2.
  rewrite <- Hr' in Hd2. simpl in Hd2. unfold dates in Hd1, Hd2.
  rewrite pass1_writes in Hp1.
  destruct (all_writes (dates r) (buckets_of o1)) as [ws|]; [|done].
  injection Hp1 as <-. subst r'. split; [|split; [|split]].
  - rewrite settle_buckets_dom. simpl. apply apply_writes_dom.
  - rewrite settle_buckets_is_entry. simpl. apply apply_writes_entry.
  - rewrite <- (length_fmap date), Hd2, Hd1. apply length_fmap.
  - by rewrite Hd2.
Qed.

Lemma SetDurations_keeps_dates_witness :
  let r : Releases :=
    {[ "1.7" := {[ "beta" := [mkRelease 20 0; mkRelease 30 0];
                   "rc" := [mkRelease 40 0] ]} ]} in
  let r' : Releases :=
    {[ "1.7" := {[ "beta" := [mkRelease 20 10; mkRelease 30 10];
                   "rc" := [mkRelease 40 60] ]} ]} in
  (is_Some (r' !! "1.7") ↔ is_Some (r !! "1.7")) ∧
  (is_Some (r' !! "1.7" ≫= lookup "beta") ↔
   is_Some (r !! "1.7" ≫= lookup "beta")) ∧
  length (bucket r' "1.7" "beta") = length (bucket r "1.7" "beta") ∧
  date <$> bucket r' "1.7" "beta" = date <$> bucket r "1.7" "beta".
Proof.
  intros r r'.
  apply (SetDurations_keeps_dates r r' [("1.7"%string, ["rc"; "beta"]%string)]
           [("1.7"%string, ["beta"; "rc"]%string)] (λ _, 100) 1%nat
           "1.7" "beta").
  vm_compute. reflexivity.
Defined.

(** ** When the duration assignment panics *)

Lemma prevVersion_None v : prevVersion v = None ↔ parseVersion v = None.
Proof.
  unfold prevVersion. destruct (parseVersion v) as [[? ?]|]; simpl; by split.
Qed.

Lemma step_writes_None D v t i d :
  step_writes D v t i d = None ↔ i = 0%nat ∧ panics_on v t.
Proof.
  unfold step_writes, panics_on. rewrite <- prevVersion_None.
  destruct i as [|j].
  - rewrite !(bool_decide_eq_true_2 (0%nat = 0%nat)) by done.
    rewrite !andb_true_r.
    destruct (decide (t = BetaRelease)) as [->|Hb].
    { rewrite bool_decide_eq_true_2 by done. split; [done|].
      intros [_ [(H & _)|(H & _)]]; done. }
    rewrite (bool_decide_eq_false_2 (t = BetaRelease)) by done.
    destruct (decide (t = RCRelease)) as [->|Hrc].
    { rewrite bool_decide_eq_true_2 by done. split; [done|].
      intros [_ [(_ & H & _)|(H & _)]]; done. }
    rewrite (bool_decide_eq_false_2 (t = RCRelease)) by done.
    destruct (decide (t = GARelease)) as [->|Hga].
    { rewrite bool_decide_eq_true_2 by done.
      destruct (prevVersion v); simpl.
      - split; [done|]. intros [_ [(_ & _ & H)|(_ & H)]]; done.
      - split; [|done]. intros _. split; [done|]. by right. }
    rewrite (bool_decide_eq_false_2 (t = GARelease)) by done.
    split; [|done]. intros _. split; [done|]. by left.
  - rewrite !(bool_decide_eq_false_2 (S j = 0%nat)) by done.
    rewrite !andb_false_r. split; [done|]. by intros [? _].
Qed.

Lemma bucket_writes_from_S D v t i ds :
  is_Some (bucket_writes_from D v t (S i) ds).
Proof.
  revert i. induction ds as [|d ds IH]; intros i; simpl; [by eexists|].
  destruct (step_writes D v t (S i) d) as [ws|] eqn:Hs.
  - simpl. destruct (IH (S i)) as [ws' ->]. by eexists.
  - apply step_writes_None in Hs as [? _]. done.
Qed.

Lemma bucket_writes_from_None D v t ds :
  bucket_writes_from D v t 0 ds = None ↔ ds ≠ [] ∧ panics_on v t.
Proof.
  destruct ds as [|d ds]; simpl.
  - split; [done|]. by intros [? _].
  - destruct (step_writes D v t 0 d) as [ws|] eqn:Hs; simpl.
    + destruct (bucket_writes_from_S D v t 0 ds) as [ws' ->]. simpl.
      split; [done|]. intros [_ Hp].
      assert (step_writes D v t 0 d = None) as Hn by (by apply step_writes_None).
      by rewrite Hn in Hs.
    + apply step_writes_None in Hs as [_ Hp]. done.
Qed.

Lemma all_writes_None D bs :
  all_writes D bs = None ↔
  ∃ v t, (v, t) ∈ bs ∧ D v t ≠ [] ∧ panics_on v t.
Proof.
  induction bs as [|[v t] bs IH]; simpl.
  - split; [done|]. by intros (? & ? & ?%elem_of_nil & _).
  - destruct (bucket_writes_from D v t 0 (D v t)) as [ws|] eqn:Hb; simpl.
    + destruct (all_writes D bs) as [ws'|]; simpl.
      * split; [done|]. intros (v' & t' & Hin & Hne & Hp).
        apply elem_of_cons in Hin as [[= -> ->]|Hin].
        -- assert (bucket_writes_from D v t 0 (D v t) = None) as Hn
             by (by apply bucket_writes_from_None).
           by rewrite Hn in Hb.
        -- destruct IH as [_ IH].
           assert (Some ws' = None) as Hn by (apply IH; by exists v', t').
           done.
      * split; [|done]. intros _.
        destruct IH as [IH _]. destruct (IH eq_refl) as (v' & t' & Hin & H).
        exists v', t'. split; [by apply list_elem_of_further|done].
    + split; [|done]. intros _. apply bucket_writes_from_None in Hb.
      exists v, t. split; [apply list_elem_of_here|done].
Qed.

(** X9: [SetDurations] panics exactly when the ledger holds a release
    whose type is none of beta, rc and the dot (the default case indexes
    the bucket at -1), or a GA release of a version that [parseVersion]
    rejects. *)
Theorem SetDurations_panics (r : Releases)
    (o1 o2 : list (Version * list ReleaseType)) (clock : nat → instant) :
  iteration_order r o1 →
  (SetDurations o1 o2 clock r = None ↔
   ∃ v t, bucket r v t ≠ [] ∧ panics_on v t).
Proof.
  intros Ho1. unfold SetDurations. rewrite pass1_writes.
  destruct (all_writes (dates r) (buckets_of o1)) as [ws|] eqn:Hws; simpl.
  - rewrite pass2_settle. split; [done|]. intros (v & t & Hne & Hp).
    assert (all_writes (dates r) (buckets_of o1) = None) as Hn.
    { apply all_writes_None. exists v, t. split; [|split; [|done]].
      - rewrite (iteration_order_buckets _ _ Ho1).
        by apply bucket_nonempty_all_buckets.
      - unfold dates. intros Hnil. by apply fmap_nil_inv in Hnil. }
    by rewrite Hn in Hws.
  - split; [|done]. intros _. apply all_writes_None in Hws.
    destruct Hws as (v & t & _ & Hne & Hp). exists v, t. split; [|done].
    intros Hnil. unfold dates in Hne. by rewrite Hnil in Hne.
Qed.

Lemma SetDurations_panics_witness :
  let r : Releases := {[ "1.7" := {[ "alpha" := [mkRelease 20 0] ]} ]} in
  let o := [("1.7"%string, ["alpha"%string])] in
  SetDurations o o (λ _, 100) r = None ↔
  ∃ v t, bucket r v t ≠ [] ∧ panics_on v t.
Proof.
  intros r o. apply (SetDurations_panics r o o (λ _, 100)). compute_done.
Defined.

(** ** What the first loop writes on a release *)

Lemma set_duration_twice d1 d2 x :
  set_duration d2 (set_duration d1 x) = set_duration d2 x.
Proof. done. Qed.

(** A release that every write aimed at it closes at the same date [d]
    ends closed at [d] when there is such a write, and as it was when
    there is none. *)
Lemma apply_writes_lookup ws (r : Releases) v t i d x :
  (∀ w, w ∈ ws → target w = (v, t, i) → w.2 = d) →
  bucket r v t !! i = Some x →
  bucket (apply_writes ws r) v t !! i =
  Some (if decide (Exists (λ w, target w = (v, t, i)) ws)
        then set_duration d x else x).
Proof.
  revert r x. induction ws as [|w ws IH]; intros r x Hd Hx.
  - cbn [apply_writes foldl].
    destruct (decide (Exists (λ w, target w = (v, t, i)) [])) as [He|_];
      [by apply Exists_nil in He|done].
  - cbn [apply_writes foldl]. fold (apply_writes ws (apply_write r w)).
    assert (Hd' : ∀ w', w' ∈ ws → target w' = (v, t, i) → w'.2 = d).
    { intros w' Hin. apply Hd. by apply list_elem_of_further. }
    destruct w as [[[v' t'] i'] d']. unfold apply_write. simpl.
    destruct (decide ((v', t', i') = (v, t, i))) as [[= -> -> ->]|Hne].
    + assert (d' = d) as -> by (apply (Hd (v, t, i, d'));
                                 [apply list_elem_of_here|reflexivity]).
      rewrite (IH _ (set_duration d x) Hd').
      2:{ rewrite close_bucket, decide_True by done.
          by rewrite list_lookup_alter_eq, Hx. }
      rewrite (decide_True (P := Exists _ (_ :: ws)))
        by (by apply Exists_cons_hd).
      by destruct (decide (Exists (λ w, target w = (v, t, i)) ws)).
    + rewrite (IH _ x Hd').
      2:{ rewrite close_bucket.
          destruct (decide ((v', t') = (v, t))) as [Hvt|Hvt]; [|done].
          injection Hvt as -> ->. rewrite list_lookup_alter_ne; [done|].
          congruence. }
      destruct (decide (Exists (λ w, target w = (v, t, i)) ws)) as [He|He].
      * by rewrite decide_True by (by apply Exists_cons_tl).
      * rewrite decide_False; [done|].
        intros [Hhd|Htl]%Exists_cons; [by destruct Hne|done].
Qed.

Lemma step_writes_S D v t j d :
  step_writes D v t (S j) d = Some [(v, t, j, d)].
Proof.
  unfold step_writes.
  rewrite !(bool_decide_eq_false_2 (S j = 0%nat)) by done.
  by rewrite !andb_false_r.
Qed.

Lemma bucket_writes_from_S_mem D v t ds j k d ws :
  bucket_writes_from D v t (S j) ds = Some ws →
  ds !! k = Some d → (v, t, (j + k)%nat, d) ∈ ws.
Proof.
  revert j k ws. induction ds as [|d0 ds IH]; intros j k ws; [done|].
  cbn [bucket_writes_from]. rewrite step_writes_S. simpl.
  destruct (bucket_writes_from D v t (S (S j)) ds) as [ws'|] eqn:Hrest;
    [|done].
  intros [= <-] Hk. destruct k as [|k]; simpl in Hk.
  - injection Hk as ->. rewrite Nat.add_0_r. apply list_elem_of_here.
  - apply list_elem_of_further. rewrite Nat.add_succ_r.
    by apply (IH (S j) k ws').
Qed.

(** The release after the first of a bucket visited closes the one before
    it. *)
Lemma all_writes_next D bs ws v t i d :
  all_writes D bs = Some ws → (v, t) ∈ bs → D v t !! S i = Some d →
  (v, t, i, d) ∈ ws.
Proof.
  revert ws. induction bs as [|[v' t'] bs IH]; intros ws; simpl.
  { by intros _ ?%elem_of_nil. }
  destruct (bucket_writes_from D v' t' 0 (D v' t')) as [ws1|] eqn:Hb; [|done].
  destruct (all_writes D bs) as [ws2|]; [|done]. simpl.
  intros [= <-] Hin Hd. apply elem_of_app.
  apply elem_of_cons in Hin as [[= <- <-]|Hin]; [left|right; by apply IH].
  destruct (D v t) as [|d0 ds]; [done|]. simpl in Hd.
  cbn [bucket_writes_from] in Hb.
  destruct (step_writes D v t 0 d0) as [ws0|]; [|done]. simpl in Hb.
  destruct (bucket_writes_from D v t 1 ds) as [ws'|] eqn:Hrest; [|done].
  injection Hb as <-. apply elem_of_app. right.
  by apply (bucket_writes_from_S_mem D v t ds 0 i d ws').
Qed.

(** The writes of the first release of a bucket visited. *)
Lemma all_writes_first D bs ws v t d ws0 w :
  all_writes D bs = Some ws → (v, t) ∈ bs → D v t !! 0%nat = Some d →
  step_writes D v t 0 d = Some ws0 → w ∈ ws0 → w ∈ ws.
Proof.
  revert ws. induction bs as [|[v' t'] bs IH]; intros ws; simpl.
  { by intros _ ?%elem_of_nil. }
  destruct (bucket_writes_from D v' t' 0 (D v' t')) as [ws1|] eqn:Hb; [|done].
  destruct (all_writes D bs) as [ws2|]; [|done]. simpl.
  intros [= <-] Hin Hd Hs Hw. apply elem_of_app.
  apply elem_of_cons in Hin as [[= <- <-]|Hin]; [left|right; by apply IH].
  destruct (D v t) as [|d0 ds]; [done|]. simpl in Hd. injection Hd as ->.
  cbn [bucket_writes_from] in Hb. rewrite Hs in Hb. simpl in Hb.
  destruct (bucket_writes_from D v t 1 ds) as [ws'|]; [|done].
  injection Hb as <-. apply elem_of_app. by left.
Qed.

(** What closes a release: the next date of its bucket for a release that
    is not the last, and for the last one of a bucket the first date of
    the bucket that follows (rc after beta, GA after rc, the GA of a next
    version after GA). *)
Lemma closes_not_last D v t i d d' :
  closes D (v, t, i, d) → D v t !! S i = Some d' → d = d'.
Proof.
  intros Hc Hd'. pose proof (lookup_lt_Some _ _ _ Hd') as Hlt.
  inversion Hc; subst; try lia. congruence.
Qed.

Lemma closes_last_beta D v i d d' :
  closes D (v, BetaRelease, i, d) → S i = length (D v BetaRelease) →
  D v RCRelease !! 0%nat = Some d' → d = d'.
Proof.
  intros Hc Hl Hd'. inversion Hc as [???? Hn| | |]; subst; try congruence.
  apply lookup_lt_Some in Hn. lia.
Qed.

Lemma closes_last_rc D v i d d' :
  closes D (v, RCRelease, i, d) → S i = length (D v RCRelease) →
  D v GARelease !! 0%nat = Some d' → d = d'.
Proof.
  intros Hc Hl Hd'. inversion Hc as [???? Hn| | |]; subst; try congruence.
  apply lookup_lt_Some in Hn. lia.
Qed.

Lemma closes_last_ga r w u i d d' :
  distinct_predecessors r →
  closes (dates r) (u, GARelease, i, d) →
  S i = length (dates r u GARelease) →
  prevVersion w = Some u → dates r w GARelease !! 0%nat = Some d' → d = d'.
Proof.
  intros Hdist Hc Hl Hp Hd'.
  inversion Hc as [???? Hn| | |w' ??? Hp' _ Hd]; subst.
  - apply lookup_lt_Some in Hn. lia.
  - assert (Hne : ∀ x e, dates r x GARelease !! 0%nat = Some e →
                         bucket r x GARelease ≠ []).
    { intros x e H Hnil. unfold dates in H. by rewrite Hnil in H. }
    assert (w' = w) as -> by (eapply Hdist; eauto). congruence.
Qed.

(** *** After both loops *)

Lemma settle_list_lookup_closed clock n l i x :
  l !! i = Some x → duration x ≠ 0 → (settle_list clock n l).1 !! i = Some x.
Proof.
  revert n i. induction l as [|rel l IH]; intros n i Hx Hd; [done|].
  simpl. destruct i as [|i]; simpl in Hx.
  - injection Hx as ->. destruct (Z.eqb_spec (duration x) 0); [done|].
    by destruct (settle_list clock n l).
  - destruct (duration rel =? 0).
    + specialize (IH (S n) i Hx Hd). by destruct (settle_list clock (S n) l).
    + specialize (IH n i Hx Hd). by destruct (settle_list clock n l).
Qed.

Lemma settle_buckets_lookup_closed clock bs s v t i x :
  bucket s.1 v t !! i = Some x → duration x ≠ 0 →
  bucket (settle_buckets clock bs s).1 v t !! i = Some x.
Proof.
  revert s. induction bs as [|b bs IH]; intros s Hx Hd; [done|].
  rewrite settle_buckets_cons. apply IH; [|done].
  rewrite settle_bucket_bucket. case_decide; [|done].
  by apply settle_list_lookup_closed.
Qed.

(** A release that the first loop closes at [d], from all sides, holds the
    span to [d] when [SetDurations] returns, unless the span is zero. *)
Lemma SetDurations_closed_at (r r' : Releases) o1 o2 clock n v t i x d :
  SetDurations o1 o2 clock r = Some (r', n) →
  bucket r v t !! i = Some x →
  (∀ ws w, all_writes (dates r) (buckets_of o1) = Some ws → w ∈ ws →
           target w = (v, t, i) → w.2 = d) →
  (∀ ws, all_writes (dates r) (buckets_of o1) = Some ws →
         (v, t, i, d) ∈ ws) →
  d ≠ date x →
  bucket r' v t !! i = Some (mkRelease (date x) (Sub d (date x))).
Proof.
  unfold SetDurations. intros H Hx Hall Hex Hne.
  rewrite pass1_writes in H.
  destruct (all_writes (dates r) (buckets_of o1)) as [ws|] eqn:Hws; [|done].
  simpl in H. rewrite pass2_settle in H. injection H as H.
  assert (Hr' : r' = (settle_buckets clock (buckets_of o2)
                        (apply_writes ws r, 0%nat)).1) by (by rewrite H).
  rewrite Hr'. apply settle_buckets_lookup_closed.
  - simpl. rewrite (apply_writes_lookup ws r v t i d x); [|by eauto|done].
    rewrite decide_True; [done|]. apply Exists_exists.
    exists (v, t, i, d). split; [by apply Hex|done].
  - simpl. by rewrite Sub_zero.
Qed.

(** X10: in the ledger that [SetDurations] returns, a release that is
    followed by another one in its bucket holds the span from its date to
    the date of the next one (provided the two dates differ), in every
    bucket and for every iteration order. *)
Theorem release_closed_by_next (r r' : Releases)
    (o1 o2 : list (Version * list ReleaseType)) (clock : nat → instant)
    (n : nat) (v : Version) (t : ReleaseType) (i : nat) (a b : Release) :
  iteration_order r o1 →
  SetDurations o1 o2 clock r = Some (r', n) →
  bucket r v t !! i = Some a → bucket r v t !! S i = Some b →
  date b ≠ date a →
  bucket r' v t !! i = Some (mkRelease (date a) (Sub (date b) (date a))).
Proof.
  intros Ho1 Hset Ha Hb Hne.
  assert (Hd : dates r v t !! S i = Some (date b)).
  { unfold dates. by rewrite list_lookup_fmap, Hb. }
  apply (SetDurations_closed_at r r' o1 o2 clock n); try done.
  - intros ws [[[v' t'] i'] d] Hws Hin [= -> -> ->]. simpl.
    eapply closes_not_last; [|exact Hd]. by eapply all_writes_closes.
  - intros ws Hws. eapply all_writes_next; [done| |done].
    rewrite (iteration_order_buckets _ _ Ho1).
    apply bucket_nonempty_all_buckets. intros Hnil. by rewrite Hnil in Ha.
Qed.

Lemma release_closed_by_next_witness :
  let r : Releases :=
    {[ "1.7" := {[ "." := [mkRelease 20 0; mkRelease 30 0; mkRelease 45 0] ]} ]} in
  let r' : Releases :=
    {[ "1.7" := {[ "." := [mkRelease 20 10; mkRelease 30 15; mkRelease 45 55] ]} ]} in
  bucket r' "1.7" "." !! 1%nat
  = Some (mkRelease (date (mkRelease 30 0))
            (Sub (date (mkRelease 45 0)) (date (mkRelease 30 0)))).
Proof.
  intros r r'.
  apply (release_closed_by_next r r' [("1.7"%string, ["."%string])]
           [("1.7"%string, ["."%string])] (λ _, 100) 1%nat "1.7" "." 1%nat
           (mkRelease 30 0) (mkRelease 45 0)).
  - compute_done.
  - vm_compute. reflexivity.
  - vm_compute. reflexivity.
  - vm_compute. reflexivity.
  - vm_compute. discriminate.
Defined.

Lemma SetDurations_dates (r r' : Releases) o1 o2 clock n v t :
  SetDurations o1 o2 clock r = Some (r', n) → dates r' v t = dates r v t.
Proof.
  unfold SetDurations. intros H.
  destruct (pass1 o1 r) as [r1|] eqn:Hp1; [|done]. simpl in H.
  rewrite pass2_settle in H. injection H as H.
  assert (Hr' : r' = (settle_buckets clock (buckets_of o2) (r1, 0%nat)).1)
    by (by rewrite H).
  rewrite Hr', settle_buckets_dates. simpl. by eapply pass1_dates.
Qed.

Lemma last_write_mem D v t d i :
  S i = length (D v t) → (v, t, i, d) ∈ last_write D v t d.
Proof.
  intros Hl. unfold last_write. rewrite <- Hl. apply list_elem_of_here.
Qed.

Lemma last_Some_lookup {A} (l : list A) x :
  last l = Some x → ∃ i, S i = length l ∧ l !! i = Some x.
Proof.
  rewrite last_lookup. intros H. destruct l as [|y l]; [done|].
  exists (length l). split; [done|]. exact H.
Qed.

Lemma lookup_last {A} (l : list A) i x :
  S i = length l → l !! i = Some x → last l = Some x.
Proof. intros Hl Hx. rewrite last_lookup, <- Hl. exact Hx. Qed.

(** X11: in the ledger that [SetDurations] returns, the last beta of a
    version holds the span to the first release candidate of the version,
    and the last release candidate the span to the first GA release of
    the version (provided the two dates differ), for every iteration
    order. *)
Theorem last_closed_by_next_type (r r' : Releases)
    (o1 o2 : list (Version * list ReleaseType)) (clock : nat → instant)
    (n : nat) (v : Version) (t t' : ReleaseType) (a b : Release) :
  iteration_order r o1 →
  SetDurations o1 o2 clock r = Some (r', n) →
  (t, t') = (BetaRelease, RCRelease) ∨ (t, t') = (RCRelease, GARelease) →
  last (bucket r v t) = Some a → bucket r v t' !! 0%nat = Some b →
  date b ≠ date a →
  last (bucket r' v t) = Some (mkRelease (date a) (Sub (date b) (date a))).
Proof.
  intros Ho1 Hset Htt Ha Hb Hne.
  apply last_Some_lookup in Ha as (i & Hl & Ha).
  assert (Hl' : S i = length (bucket r' v t)).
  { rewrite <- !dates_length, (SetDurations_dates _ _ _ _ _ _ _ _ Hset).
    by rewrite dates_length. }
  apply (lookup_last _ i); [done|].
  assert (Hd : dates r v t' !! 0%nat = Some (date b)).
  { unfold dates. by rewrite list_lookup_fmap, Hb. }
  assert (HlD : S i = length (dates r v t)) by (by rewrite dates_length).
  assert (Hin : (v, t') ∈ buckets_of o1).
  { rewrite (iteration_order_buckets _ _ Ho1).
    apply bucket_nonempty_all_buckets. intros Hnil. by rewrite Hnil in Hb. }
  apply (SetDurations_closed_at r r' o1 o2 clock n); try done.
  - intros ws [[[v0 t0] i0] d] Hws Hw [= -> -> ->]. simpl.
    pose proof (all_writes_closes _ _ _ Hws _ Hw) as Hc.
    destruct Htt as [[= -> ->]|[= -> ->]].
    + by eapply closes_last_beta.
    + by eapply closes_last_rc.
  - intros ws Hws. destruct Htt as [[= -> ->]|[= -> ->]].
    + eapply (all_writes_first _ _ _ v RCRelease); [done..| |].
      * reflexivity.
      * by apply last_write_mem.
    + assert (Hprev : is_Some (prevVersion v)).
      { destruct (prevVersion v) eqn:Hp; [by eexists|].
        assert (all_writes (dates r) (buckets_of o1) = None) as Hn.
        { apply all_writes_None. exists v, GARelease. split; [done|].
          split; [intros Hnil; by rewrite Hnil in Hd|].
          right. split; [done|]. by apply prevVersion_None. }
        by rewrite Hn in Hws. }
      destruct Hprev as [prev Hprev].
      eapply (all_writes_first _ _ _ v GARelease); [done..| |].
      * unfold step_writes. simpl. rewrite Hprev. reflexivity.
      * apply elem_of_app. left. by apply last_write_mem.
Qed.

Lemma last_closed_by_next_type_witness :
  let r : Releases :=
    {[ "1.7" := {[ "beta" := [mkRelease 20 0; mkRelease 30 0];
                   "rc" := [mkRelease 40 0] ]} ]} in
  let r' : Releases :=
    {[ "1.7" := {[ "beta" := [mkRelease 20 10; mkRelease 30 10];
                   "rc" := [mkRelease 40 60] ]} ]} in
  last (bucket r' "1.7" BetaRelease)
  = Some (mkRelease (date (mkRelease 30 0))
            (Sub (date (mkRelease 40 0)) (date (mkRelease 30 0)))).
Proof.
  intros r r'.
  apply (last_closed_by_next_type r r' [("1.7"%string, ["rc"; "beta"]%string)]
           [("1.7"%string, ["beta"; "rc"]%string)] (λ _, 100) 1%nat
           "1.7" BetaRelease RCRelease (mkRelease 30 0) (mkRelease 40 0)).
  - compute_done.
  - vm_compute. reflexivity.
  - by left.
  - vm_compute. reflexivity.
  - vm_compute. reflexivity.
  - vm_compute. discriminate.
Defined.

(** X12: when no two versions holding GA releases have the same previous
    version, the last GA release of the previous version of [w] holds, in
    the ledger that [SetDurations] returns, the span to the first GA
    release of [w] (provided the two dates differ), for every iteration
    order. *)
Theorem last_GA_closed_by_next_version (r r' : Releases)
    (o1 o2 : list (Version * list ReleaseType)) (clock : nat → instant)
    (n : nat) (w u : Version) (a b : Release) :
  iteration_order r o1 → distinct_predecessors r →
  SetDurations o1 o2 clock r = Some (r', n) →
  prevVersion w = Some u →
  bucket r w GARelease !! 0%nat = Some b →
  last (bucket r u GARelease) = Some a →
  date b ≠ date a →
  last (bucket r' u GARelease)
  = Some (mkRelease (date a) (Sub (date b) (date a))).
Proof.
  intros Ho1 Hdist Hset Hprev Hb Ha Hne.
  apply last_Some_lookup in Ha as (i & Hl & Ha).
  assert (Hl' : S i = length (bucket r' u GARelease)).
  { rewrite <- !dates_length, (SetDurations_dates _ _ _ _ _ _ _ _ Hset).
    by rewrite dates_length. }
  apply (lookup_last _ i); [done|].
  assert (Hd : dates r w GARelease !! 0%nat = Some (date b)).
  { unfold dates. by rewrite list_lookup_fmap, Hb. }
  assert (HlD : S i = length (dates r u GARelease))
    by (by rewrite dates_length).
  assert (Hin : (w, GARelease) ∈ buckets_of o1).
  { rewrite (iteration_order_buckets _ _ Ho1).
    apply bucket_nonempty_all_buckets. intros Hnil. by rewrite Hnil in Hb. }
  apply (SetDurations_closed_at r r' o1 o2 clock n); try done.
  - intros ws [[[v0 t0] i0] d] Hws Hw [= -> -> ->]. simpl.
    pose proof (all_writes_closes _ _ _ Hws _ Hw) as Hc.
    by eapply closes_last_ga.
  - intros ws Hws.
    eapply (all_writes_first _ _ _ w GARelease); [done..| |].
    + unfold step_writes. simpl. rewrite Hprev. reflexivity.
    + apply elem_of_app. right. by apply last_write_mem.
Qed.

Lemma last_GA_closed_by_next_version_witness :
  let r : Releases :=
    {[ "1.6" := {[ "." := [mkRelease 10 0; mkRelease 15 0] ]};
       "1.7" := {[ "." := [mkRelease 50 0] ]} ]} in
  let r' : Releases :=
    {[ "1.6" := {[ "." := [mkRelease 10 5; mkRelease 15 35] ]};
       "1.7" := {[ "." := [mkRelease 50 50] ]} ]} in
  last (bucket r' "1.6" GARelease)
  = Some (mkRelease (date (mkRelease 15 0))
            (Sub (date (mkRelease 50 0)) (date (mkRelease 15 0)))).
Proof.
  intros r r'.
  apply (last_GA_closed_by_next_version r r'
           [("1.7"%string, ["."%string]); ("1.6"%string, ["."%string])]
           [("1.6"%string, ["."%string]); ("1.7"%string, ["."%string])]
           (λ _, 100) 1%nat "1.7" "1.6" (mkRelease 15 0) (mkRelease 50 0)).
  - compute_done.
  - apply distinct_predecessors_keys. compute_done.
  - vm_compute. reflexivity.
  - vm_compute. reflexivity.
  - vm_compute. reflexivity.
  - vm_compute. reflexivity.
  - vm_compute. discriminate.
Defined.

(** ** The report *)

Lemma append_assoc (a b c : string) :
  ((a +:+ b) +:+ c = a +:+ (b +:+ c))%string.
Proof.
  induction a as [|x a IH]; [done|].
  change (String x ((a +:+ b) +:+ c) = String x (a +:+ (b +:+ c)))%string.
  by rewrite IH.
Qed.

Lemma append_nil_r (a : string) : (a +:+ EmptyString)%string = a.
Proof.
  induction a as [|x a IH]; [done|].
  change (String x (a +:+ EmptyString)%string = String x a). by rewrite IH.
Qed.

(** The loop over a bucket adds the days to the buffer and extends the
    header up to the length of the bucket. *)
Lemma CSV_releases_spec i l buf m :
  (i ≤ m)%nat →
  CSV_releases i l (buf, columns m)
  = ((buf +:+ days l)%string, columns (m `max` (i + length l))).
Proof.
  revert i buf m. induction l as [|rel l IH]; intros i buf m Him.
  - simpl. rewrite append_nil_r. do 2 f_equal. lia.
  - cbn [CSV_releases fst snd days foldr].
    assert (Hlen : length (columns m) = Datatypes.S m).
    { unfold columns. simpl. by rewrite length_fmap, length_seq. }
    rewrite Hlen.
    destruct (Z.ltb_spec (Z.of_nat (Datatypes.S m) - 2) (Z.of_nat i)) as [Hlt|Hge].
    + assert (i = m) as -> by lia.
      assert (Hc : columns m ++ [strconv.FormatInt (Z.of_nat m)]
                   = columns (Datatypes.S m)).
      { unfold columns. rewrite seq_S, fmap_app. done. }
      rewrite Hc, IH by lia. rewrite !append_assoc.
      f_equal. f_equal. simpl. lia.
    + rewrite IH by lia. rewrite !append_assoc.
      f_equal. f_equal. simpl. lia.
Qed.

Section CSV_loops.
Variables showGA showBeta showRC : bool.
Variable r : Releases.

Let keep (b : Version * ReleaseType) : Prop :=
  skipped showGA showBeta showRC b.2 = false.
Let len (b : Version * ReleaseType) : nat := length (bucket r b.1 b.2).

Lemma CSV_types_spec version ts buf m :
  CSV_types showGA showBeta showRC r version ts (buf, columns m)
  = ((buf +:+ rows r (filter keep (pair version <$> ts)))%string,
     columns (m `max` max_list_with len (filter keep (pair version <$> ts)))).
Proof.
  revert buf m. induction ts as [|typ ts IH]; intros buf m.
  - simpl. rewrite append_nil_r. do 2 f_equal. lia.
  - cbn [CSV_types fmap list_fmap]. rewrite filter_cons.
    destruct (decide (keep (version, typ))) as [Hk|Hk]; unfold keep in Hk;
      cbn [snd] in Hk.
    + rewrite Hk. cbn [fst snd].
      rewrite CSV_releases_spec by lia. cbn [fst snd]. rewrite IH.
      cbn [rows foldr max_list_with]. unfold row, len at 2. cbn [fst snd].
      rewrite !append_assoc. f_equal. f_equal. simpl. lia.
    + apply not_false_is_true in Hk. rewrite Hk. apply IH.
Qed.

Lemma CSV_versions_spec o buf m :
  CSV_versions showGA showBeta showRC r o (buf, columns m)
  = ((buf +:+ rows r (filter keep (buckets_of o)))%string,
     columns (m `max` max_list_with len (filter keep (buckets_of o)))).
Proof.
  revert buf m. induction o as [|[version ts] o IH]; intros buf m.
  - simpl. rewrite append_nil_r. do 2 f_equal. lia.
  - cbn [CSV_versions]. rewrite CSV_types_spec, IH.
    change (buckets_of ((version, ts) :: o))
      with ((pair version <$> ts) ++ buckets_of o).
    rewrite filter_app.
    assert (Hrows : ∀ l1 l2, rows r (l1 ++ l2) = (rows r l1 +:+ rows r l2)%string).
    { induction l1 as [|b l1 IH1]; intros l2; [done|].
      simpl. by rewrite IH1, append_assoc. }
    assert (Hmax : ∀ l1 l2 : list (Version * ReleaseType),
               max_list_with len (l1 ++ l2)
               = (max_list_with len l1 `max` max_list_with len l2)%nat).
    { induction l1 as [|b l1 IH1]; intros l2; [done|].
      simpl. rewrite IH1. lia. }
    rewrite Hrows, Hmax, append_assoc. f_equal. f_equal. lia.
Qed.
End CSV_loops.

(** X13: the report is the header, with the columns 0, 1, ... up to the
    length of the longest bucket shown, then one line for every bucket
    shown, in the order of the iteration: whatever that order, the header
    is the same and the lines are the same up to their order. *)
Theorem CSV_report (showGA showBeta showRC : bool) (r : Releases)
    (o : list (Version * list ReleaseType)) :
  iteration_order r o →
  ∃ bs, bs ≡ₚ shown showGA showBeta showRC r ∧
        CSV showGA showBeta showRC o r
        = (Join (columns (max_list_with (λ b, length (bucket r b.1 b.2))
                            (shown showGA showBeta showRC r))) ","
             +:+ String Newline EmptyString +:+ rows r bs)%string.
Proof.
  intros Ho%iteration_order_buckets.
  exists (filter (λ b, skipped showGA showBeta showRC b.2 = false)
                 (buckets_of o)).
  assert (Hperm : filter (λ b, skipped showGA showBeta showRC b.2 = false)
                         (buckets_of o) ≡ₚ shown showGA showBeta showRC r).
  { unfold shown. by rewrite Ho. }
  split; [done|]. unfold CSV.
  change [EmptyString] with (columns 0).
  rewrite CSV_versions_spec. cbn [fst snd].
  by rewrite (max_list_with_Permutation_proper _ _ _ Hperm).
Qed.

Lemma CSV_report_witness :
  let r : Releases :=
    {[ "1.7" := {[ "beta" := [mkRelease 0 (3 * day); mkRelease 0 (5 * day - 1)];
                   "." := [mkRelease 0 (- day)] ]} ]} in
  let o := [("1.7"%string, ["beta"; "."]%string)] in
  ∃ bs, bs ≡ₚ shown true true false r ∧
        CSV true true false o r
        = (Join (columns (max_list_with (λ b, length (bucket r b.1 b.2))
                            (shown true true false r))) ","
             +:+ String Newline EmptyString +:+ rows r bs)%string.
Proof.
  intros r o. apply (CSV_report true true false r o). compute_done.
Defined.

(** ** A run without flags *)

Lemma Add_entry r version typ num d r' v t :
  Add r version typ num d = Some r' →
  is_Some (r' !! v ≫= lookup t) →
  is_Some (r !! v ≫= lookup t) ∨ (v = version ∧ t = typ).
Proof.
  unfold Add. destruct (nextVersion version) as [next|]; [|done]. simpl.
  destruct (has_bucket _ next GARelease && bool_decide (typ = GARelease)).
  - intros [= <-]. rewrite make_version_lookup. by left.
  - intros [= <-]. destruct (decide (version = v)) as [->|Hv].
    + rewrite lookup_insert_eq. simpl.
      destruct (decide (typ = t)) as [->|Ht]; [by right|].
      rewrite lookup_insert_ne by done. intros H. left.
      rewrite <- (make_version_lookup r v v t).
      by destruct (make_version r v !! v).
    + rewrite lookup_insert_ne by done. rewrite make_version_lookup. by left.
Qed.

Lemma add_tags_entry parse tags r r' :
  Forall (λ t, tag2 t ∈ type_alternatives) tags →
  (∀ v t, is_Some (r !! v ≫= lookup t) →
          t = BetaRelease ∨ t = RCRelease ∨ t = GARelease) →
  add_tags parse tags r = Ok r' →
  ∀ v t, is_Some (r' !! v ≫= lookup t) →
         t = BetaRelease ∨ t = RCRelease ∨ t = GARelease.
Proof.
  intros Htags. revert r. induction Htags as [|tg tags Ht _ IH]; intros r Hr.
  - by intros [= <-].
  - simpl. destruct (release_number tg) as [num|]; [|done].
    destruct (parse (tag4 tg)) as [d|]; [|done].
    destruct (Add r (tag1 tg) _ num d) as [r1|] eqn:Hadd; [|done].
    apply IH. intros v t Hs.
    destruct (Add_entry _ _ _ _ _ _ _ _ Hadd Hs) as [H|[_ ->]]; [by eapply Hr|].
    unfold type_alternatives in Ht.
    repeat (apply elem_of_cons in Ht as [->|Ht]); try (by auto).
    by apply elem_of_nil in Ht.
Qed.

Lemma MakeReleases_entry out r v t :
  MakeReleases out = Ok r → is_Some (r !! v ≫= lookup t) →
  t = BetaRelease ∨ t = RCRelease ∨ t = GARelease.
Proof.
  intros H. revert v t. eapply add_tags_entry; [| |exact H].
  - apply Forall_forall. intros tg (s' & rest & Hm)%FindAllStringSubmatch_match.
    by eapply match_tag_type.
  - intros v t Hs. rewrite lookup_empty in Hs. by destruct Hs.
Qed.

Lemma SetDurations_entry (r r' : Releases) o1 o2 clock n v t :
  SetDurations o1 o2 clock r = Some (r', n) →
  is_Some (r' !! v ≫= lookup t) ↔ is_Some (r !! v ≫= lookup t).
Proof.
  unfold SetDurations. intros H.
  destruct (pass1 o1 r) as [r1|] eqn:Hp1; [|done]. simpl in H.
  rewrite pass2_settle in H. injection H as H.
  assert (Hr' : r' = (settle_buckets clock (buckets_of o2) (r1, 0%nat)).1)
    by (by rewrite H).
  rewrite pass1_writes in Hp1.
  destruct (all_writes (dates r) (buckets_of o1)) as [ws|]; [|done].
  injection Hp1 as <-. subst r'.
  rewrite settle_buckets_is_entry. simpl. apply apply_writes_entry.
Qed.

(** With the three flags off, a ledger whose buckets are all of the three
    types gives no line: the report is the empty header. *)
Lemma CSV_no_flags (r : Releases) o :
  iteration_order r o →
  (∀ v t, is_Some (r !! v ≫= lookup t) →
          t = BetaRelease ∨ t = RCRelease ∨ t = GARelease) →
  CSV false false false o r = String Newline EmptyString.
Proof.
  intros Ho%iteration_order_buckets Hr. unfold CSV.
  change [EmptyString] with (columns 0). rewrite CSV_versions_spec.
  assert (Hnil : filter (λ b : Version * ReleaseType,
                           skipped false false false b.2 = false)
                        (buckets_of o) = []).
  { apply elem_of_nil_inv. intros [v t] [Hk Hin]%list_elem_of_filter.
    rewrite Ho in Hin. apply elem_of_all_buckets in Hin.
    simpl in Hk. by destruct (Hr _ _ Hin) as [->| [->| ->]]. }
  by rewrite Hnil.
Qed.

(** X14: a run without flags prints a line break and nothing else: when
    the text read gives a ledger, every bucket has one of the three types,
    and each is shown only under its flag. *)
Theorem main_without_flags (stdin : string)
    (o1 o2 o3 : list (Version * list ReleaseType)) (clock : nat → instant)
    (r r' : Releases) (n : nat) :
  MakeReleases stdin = Ok r →
  SetDurations o1 o2 clock r = Some (r', n) →
  iteration_order r' o3 →
  main false false false stdin o1 o2 o3 clock
  = Printed (String Newline EmptyString).
Proof.
  intros Hm Hs Ho. unfold main. rewrite Hm, Hs. f_equal.
  apply CSV_no_flags; [done|]. intros v t Hvt.
  apply (MakeReleases_entry _ _ v t Hm).
  by apply (SetDurations_entry _ _ _ _ _ _ v t Hs).
Qed.

Lemma main_without_flags_witness :
  let stdin := ("refs/tags/go1.7rc1" +:+ String Tab "Thu Jul 7 16:41:29 2016 -0700"
                  +:+ String Newline
                 ("refs/tags/go1.7" +:+ String Tab "Mon Aug 15 14:09:32 2016 -0700"
                  +:+ String Newline EmptyString))%string in
  let o := [("1.7"%string, ["."; "rc"]%string)] in
  main false false false stdin o o o (λ _, 1500000000000000000)
  = Printed (String Newline EmptyString).
Proof.
  intros stdin o.
  apply (main_without_flags stdin o o o (λ _, 1500000000000000000)
           {[ "1.7" := {[ "rc" := [mkRelease 1467934889000000000 0];
                          "." := [mkRelease 1471295372000000000 0] ]} ]}
           {[ "1.7" := {[ "rc" := [mkRelease 1467934889000000000
                                     3360483000000000];
                          "." := [mkRelease 1471295372000000000
                                    28704628000000000] ]} ]}
           1%nat).
  - vm_compute. reflexivity.
  - vm_compute. reflexivity.
  - compute_done.
Defined.

(** ** Printing a version and reading it back *)

Lemma digits_of_uint_acc (u : Decimal.uint) (acc : positive) :
  strconv.digits (NilEmpty.string_of_uint u) (Z.pos acc)
  = Some (Z.pos (Pos.of_uint_acc u acc)).
Proof.
  revert acc. induction u as [|u IH|u IH|u IH|u IH|u IH|u IH|u IH|u IH|u IH|u IH];
    intros acc; [done|..];
    cbn [NilEmpty.string_of_uint strconv.digits Pos.of_uint_acc];
    (replace (strconv.isDigit _) with true by (by vm_compute));
    cbv [strconv.digitVal]; rewrite <- IH; f_equal;
    rewrite ?Pos2Z.inj_add, ?Pos2Z.inj_mul; vm_compute (nat_of_ascii _); lia.
Qed.

Lemma digits_of_uint (u : Decimal.uint) :
  strconv.digits (NilEmpty.string_of_uint u) 0
  = Some (Z.of_N (Pos.of_uint u)).
Proof.
  induction u as [|u IH|u IH|u IH|u IH|u IH|u IH|u IH|u IH|u IH|u IH];
    [done|exact IH|..];
    cbn [NilEmpty.string_of_uint strconv.digits Pos.of_uint];
    (replace (strconv.isDigit _) with true by (by vm_compute));
    apply (digits_of_uint_acc u).
Qed.

Lemma digits_to_uint (p : positive) :
  strconv.digits (NilZero.string_of_uint (Pos.to_uint p)) 0 = Some (Z.pos p).
Proof.
  pose proof (DecimalPos.Unsigned.to_uint_nonnil p) as Hnil.
  assert (NilZero.string_of_uint (Pos.to_uint p)
          = NilEmpty.string_of_uint (Pos.to_uint p)) as ->
    by (by destruct (Pos.to_uint p)).
  by rewrite digits_of_uint, DecimalPos.Unsigned.of_to.
Qed.

Lemma string_of_uint_nonempty (u : Decimal.uint) :
  NilZero.string_of_uint u ≠ EmptyString.
Proof. by destruct u. Qed.

(** What [%d] prints, [ParseInt] reads back. *)
Lemma ParseInt_FormatInt (n : Z) :
  - 2 ^ 63 ≤ n < 2 ^ 63 → strconv.ParseInt (strconv.FormatInt n) = Some n.
Proof.
  intros Hn. unfold strconv.FormatInt. destruct n as [|p|p].
  - done.
  - cbn [Z.to_int NilZero.string_of_int].
    rewrite (ParseInt_digits _ (Z.pos p)).
    + destruct (Z.leb_spec (2 ^ 63) (Z.pos p)); [lia|done].
    + apply string_of_uint_nonempty.
    + apply digits_to_uint.
  - cbn [Z.to_int NilZero.string_of_int]. unfold strconv.ParseInt.
    change (Ascii.eqb "-" "-") with true. change (Ascii.eqb "-" "+") with false.
    cbn [orb negb andb].
    pose proof (string_of_uint_nonempty (Pos.to_uint p)) as Hne.
    pose proof (digits_to_uint p) as Hd.
    destruct (NilZero.string_of_uint (Pos.to_uint p)) as [|c s]; [done|].
    rewrite Hd. destruct (Z.ltb_spec (2 ^ 63) (Z.pos p)); [lia|done].
Qed.

Lemma ParseInt_range s n :
  strconv.ParseInt s = Some n → - 2 ^ 63 ≤ n < 2 ^ 63.
Proof.
  unfold strconv.ParseInt. destruct s as [|c s]; [done|].
  cbv zeta.
  destruct (if Ascii.eqb c "+" || Ascii.eqb c "-" then s else String c s)
    as [|c' s']; [done|].
  destruct (strconv.digits (String c' s') 0) as [un|] eqn:Hd; [|done].
  pose proof (digits_nonneg _ _ _ (Z.le_refl 0) Hd) as H0.
  destruct (Ascii.eqb c "-"); cbn [negb andb].
  - destruct (Z.ltb_spec (2 ^ 63) un); [done|]. intros [= <-]. lia.
  - destruct (Z.leb_spec (2 ^ 63) un); [done|]. intros [= <-]. lia.
Qed.

Lemma cut_dot_FormatInt (n : Z) (b : string) :
  cut_dot (strconv.FormatInt n +:+ String "." b)
  = Some (strconv.FormatInt n, b).
Proof.
  unfold strconv.FormatInt. destruct n as [|p|p].
  - done.
  - cbn [Z.to_int NilZero.string_of_int].
    apply (cut_dot_digits _ _ _ _ (digits_to_uint p)).
  - cbn [Z.to_int NilZero.string_of_int].
    change (cut_dot (String "-" (NilZero.string_of_uint (Pos.to_uint p)
                                   +:+ String "." b))
            = Some (String "-" (NilZero.string_of_uint (Pos.to_uint p)), b)).
    cbn [cut_dot]. change (Ascii.eqb "-" ".") with false. cbv iota.
    by rewrite (cut_dot_digits _ _ _ _ (digits_to_uint p)).
Qed.

Lemma parseVersion_Sprintf (major minor : Z) :
  - 2 ^ 63 ≤ major < 2 ^ 63 → - 2 ^ 63 ≤ minor < 2 ^ 63 →
  parseVersion (Sprintf_version major minor) = Some (major, minor).
Proof.
  intros Hmaj Hmin. unfold parseVersion, SplitN2, Sprintf_version.
  change ("." +:+ strconv.FormatInt minor)%string
    with (String "." (strconv.FormatInt minor)).
  rewrite cut_dot_FormatInt. simpl.
  by rewrite !ParseInt_FormatInt.
Qed.

Lemma parseVersion_range v major minor :
  parseVersion v = Some (major, minor) →
  - 2 ^ 63 ≤ major < 2 ^ 63 ∧ - 2 ^ 63 ≤ minor < 2 ^ 63.
Proof.
  unfold parseVersion. intros H.
  destruct (SplitN2 v !! 0%nat) as [v0|]; [|done]. simpl in H.
  destruct (strconv.ParseInt v0) as [a|] eqn:Ha; [|done]. simpl in H.
  destruct (SplitN2 v !! 1%nat) as [v1|]; [|done]. simpl in H.
  destruct (strconv.ParseInt v1) as [b|] eqn:Hb; [|done]. simpl in H.
  injection H as <- <-. split; by eapply ParseInt_range.
Qed.

(** X15: the version that [nextVersion] and [prevVersion] print is read
    back by [parseVersion] as the numbers printed, so each undoes the other
    up to the spelling of the version: after [nextVersion], [prevVersion]
    gives the version with its two numbers printed by [%d] (for 1.07 that
    is 1.7), and likewise the other way round. *)
Theorem prevVersion_nextVersion (v : Version) (major minor : Z) :
  parseVersion v = Some (major, minor) →
  (minor + 1 < 2 ^ 63 →
   ∃ w, nextVersion v = Some w ∧
        parseVersion w = Some (major, minor + 1) ∧
        prevVersion w = Some (Sprintf_version major minor)) ∧
  (- 2 ^ 63 ≤ minor - 1 →
   ∃ u, prevVersion v = Some u ∧
        parseVersion u = Some (major, minor - 1) ∧
        nextVersion u = Some (Sprintf_version major minor)).
Proof.
  intros Hv. destruct (parseVersion_range _ _ _ Hv) as [Hmaj Hmin].
  unfold nextVersion, prevVersion. rewrite Hv. cbn [mbind option_bind].
  split; intros Hb; eexists; (split; [reflexivity|]);
    rewrite wrap64_id by lia; rewrite parseVersion_Sprintf by lia;
    (split; [done|]); cbn [mbind option_bind]; rewrite wrap64_id by lia;
    do 2 f_equal; lia.
Qed.

Lemma prevVersion_nextVersion_witness :
  (7 + 1 < 2 ^ 63 →
   ∃ w, nextVersion "1.07" = Some w ∧
        parseVersion w = Some (1, 7 + 1) ∧
        prevVersion w = Some (Sprintf_version 1 7)) ∧
  (- 2 ^ 63 ≤ 7 - 1 →
   ∃ u, prevVersion "1.07" = Some u ∧
        parseVersion u = Some (1, 7 - 1) ∧
        nextVersion u = Some (Sprintf_version 1 7)).
Proof. apply (prevVersion_nextVersion "1.07" 1 7). reflexivity. Defined.
